(** * globe-webpage: projection, rotation and card sequence

    A shallow embedding of the algorithmic parts of
    [src/components/GlobeWithPins.jsx] (the components [GlobeWithPins] and
    [HomepageAnimation]) and [src/components/ui/World.jsx].

    JavaScript numbers are kept abstract behind the class [Number], so every
    function of the source is translated once.  It is read over IEEE-754
    binary64 (module [Double], Rocq's [spec_float] with [prec = 53] and
    [emax = 1024]), the numbers a JS engine computes with; the reading over
    the real numbers (module [Ideal], exact arithmetic) is kept for two
    comparisons whose margin is far wider than any rounding error. *)

From Stdlib Require Import ZArith List Bool Reals Lra Lia.
From Stdlib Require Import Floats.SpecFloat.
Import ListNotations.

Set Implicit Arguments.

(** ** JavaScript numbers *)

(** The operations of a JS number the source uses.  [ltb a b] is [a < b] and
    [leb a b] is [a <= b]; the source's [a > b] is [ltb b a], its [a >= b] is
    [leb b a]. *)
Class Number (num : Type) : Type := {
  ofZ : Z -> num;
  add : num -> num -> num;
  sub : num -> num -> num;
  mul : num -> num -> num;
  div : num -> num -> num;
  neg : num -> num;
  ltb : num -> num -> bool;
  leb : num -> num -> bool;
  Math_PI : num;
  Math_max : num -> num -> num;
  Math_min : num -> num -> num;
  Math_round : num -> num
}.

(** [Math.sin] and [Math.cos]. *)
Class Trig (num : Type) : Type := {
  Math_sin : num -> num;
  Math_cos : num -> num
}.

Declare Scope num_scope.
Delimit Scope num_scope with num.
Infix "+" := add : num_scope.
Infix "-" := sub : num_scope.
Infix "*" := mul : num_scope.
Infix "/" := div : num_scope.
Notation "- x" := (neg x) : num_scope.

(** A decimal literal [p / q] with [q] a power of ten, such as [0.06] read as
    [dec 6 100].  Over binary64 the correctly rounded quotient of two exactly
    representable integers is the double the literal denotes. *)
Definition dec {num} `{Number num} (p q : Z) : num := (ofZ p / ofZ q)%num.

(** A value that is [null] or a number (the contents of the [targetPhi] ref). *)
Inductive ref_value (num : Type) : Type :=
| Null : ref_value num
| Num : num -> ref_value num.
Arguments Null {num}.
Arguments Num {num} _.

(** [{ x, y, visible }] as returned by [latLngToScreen]. *)
Record screen_pos (num : Type) : Type := {
  x : num;
  y : num;
  visible : bool
}.

(** [players.findIndex(pred)]: the first index whose element satisfies
    [pred], [-1] when there is none. *)
Fixpoint findIndex_from {A : Type} (pred : A -> bool) (l : list A) (i : Z) : Z :=
  match l with
  | [] => (-1)%Z
  | a :: l' => if pred a then i else findIndex_from pred l' (i + 1)%Z
  end.

Definition findIndex {A : Type} (pred : A -> bool) (l : list A) : Z :=
  findIndex_from pred l 0%Z.

(** ** HomepageAnimation *)

Module HomepageAnimation.
Section Program.
Context {num : Type} {N : Number num} {T : Trig num}.
Local Open Scope num_scope.

(** An entry of [players]; name, team, location and headshot are display
    text only. *)
Record player : Type := {
  id : Z;
  mapCoord : num * num   (* [lat, lon] *)
}.

Definition players : list player :=
  [ {| id := 1; mapCoord := (ofZ 36, ofZ 3) |};
    {| id := 2; mapCoord := (ofZ 14, ofZ (-17)) |};
    {| id := 3; mapCoord := (ofZ 47, ofZ (-2)) |} ].

Definition SHOW_MS : Z := 1400.
Definition FADE_MS : Z := 300.
Definition LOOPS : Z := 1.

(** [size], the React state [{ w, h }]. *)
Record size_t : Type := { w : num; h : num }.

(** [globeRef.current = { state, phi, theta }], written by [onRender]. *)
Record globe_snapshot : Type := { snap_phi : num; snap_theta : num }.

(** The size [onResize] sets for a window of inner width [innerWidth]. *)
Definition onResize (innerWidth : num) : size_t :=
  let maxW := Math_min (innerWidth - ofZ 64) (ofZ 1200) in
  let w := Math_max (ofZ 560) (Math_min (ofZ 980) (Math_round (maxW * dec 65 100))) in
  {| w := w; h := w |}.

(** [lonToPhi(lon)]. *)
Definition lonToPhi (lon : num) : num := - ((lon * Math_PI) / ofZ 180).

(** The interpolation strength and the idle increment of [onRender]. *)
Definition strength : num := dec 6 100.
Definition idle_step : num := dec 6 10000.

(** One [phi += (t - phi) * s] step. *)
Definition interpolate (s t phi : num) : num := phi + (t - phi) * s.

(** [n] successive interpolation steps toward the same target. *)
Fixpoint seek_n (s t : num) (n : nat) (phi : num) : num :=
  match n with
  | O => phi
  | S n => interpolate s t (seek_n s t n phi)
  end.

(** The new [phi] computed by [onRender] from [targetPhi.current] and the
    closure's [phi]: [typeof t === "number"] holds for every number (also
    NaN and the infinities) and fails for [null]. *)
Definition onRender_phi (t : ref_value num) (phi : num) : num :=
  match t with
  | Num t => interpolate strength t phi
  | Null => phi + idle_step
  end.

(** [latLngToScreen(lat, lng)]; [wrapper_ready] is [wrapperRef.current]
    being non-null. *)
Definition latLngToScreen (globeRef : option globe_snapshot)
    (wrapper_ready : bool) (size : size_t) (lat lng : num) : screen_pos num :=
  match globeRef, wrapper_ready with
  | Some g, true =>
      let phi := snap_phi g in
      let lambda := (lng * Math_PI) / ofZ 180 in
      let phiLat := (lat * Math_PI) / ofZ 180 in
      let x := Math_cos phiLat * Math_cos lambda in
      let y := Math_sin phiLat in
      let z := Math_cos phiLat * Math_sin lambda in
      let rot := phi in
      let xr := x * Math_cos rot + z * Math_sin rot in
      let zr := (- x) * Math_sin rot + z * Math_cos rot in
      let R := Math_min (w size) (h size) / ofZ 2 in
      let scale := R * dec 95 100 in
      let sx := w size / ofZ 2 + xr * scale in
      let sy := h size / ofZ 2 - y * scale in
      let visible := ltb (dec 2 100) zr in
      {| x := sx; y := sy; visible := visible |}
  | _, _ => {| x := ofZ (-9999); y := ofZ (-9999); visible := false |}
  end.

(** The style of a pin's overlay: [left], [top], whether [pointerEvents] is
    ["auto"], and [opacity]. *)
Record pin_style : Type := {
  pin_left : num;
  pin_top : num;
  interactive : bool;
  opacity : num
}.

Definition pin_overlay (size : size_t) (pos : screen_pos num) : pin_style :=
  let adjustedY := y pos - h size / ofZ 2 in
  let visible :=
    visible pos && leb (ofZ 0) adjustedY && leb adjustedY (h size / ofZ 2) in
  {| pin_left := x pos; pin_top := adjustedY; interactive := visible;
     opacity := if visible then ofZ 1 else dec 15 100 |}.

(** The anchor [{ left, top }] of the active player's card. *)
Record anchor : Type := { left : num; top : num }.

Definition card_visible (size : size_t) (pos : screen_pos num) : bool :=
  let adjustedY := y pos - h size / ofZ 2 in
  visible pos && leb (ofZ 0) adjustedY && leb adjustedY (h size / ofZ 2).

Definition card_anchor (size : size_t) (pos : screen_pos num) : anchor :=
  let adjustedY := y pos - h size / ofZ 2 in
  let visible := card_visible size pos in
  let left := Math_max (ofZ 60) (Math_min (w size - ofZ 60) (x pos)) in
  let top := if visible then Math_max (ofZ 36) (adjustedY - ofZ 72) else ofZ 36 in
  {| left := left; top := top |}.

(** *** The component as a transition system

    Where the suspended [run()] stands: waiting for the [SHOW_MS] timer,
    waiting for the [FADE_MS] timer, or returned. *)
Inductive run_pc : Type := AwaitShow | AwaitFade | Returned.

Record state : Type := {
  (* React state *)
  size : size_t;
  activeIndex : option Z;
  running : bool;
  loopsDone : Z;
  (* refs *)
  targetPhi : ref_value num;
  globeRef : option globe_snapshot;
  (* [let phi], [let theta] of the effect that creates the globe *)
  phi : num;
  theta : num;
  (* the effect that runs the sequence: [mounted], the [running] its closure
     holds, and the locals of the suspended [run()] *)
  mounted : bool;
  run_running : bool;
  pc : run_pc;
  idx : Z;
  localLoop : Z
}.

Definition setActiveIndex (v : option Z) (st : state) : state :=
  {| size := size st; activeIndex := v; running := running st;
     loopsDone := loopsDone st; targetPhi := targetPhi st;
     globeRef := globeRef st; phi := phi st; theta := theta st;
     mounted := mounted st; run_running := run_running st; pc := pc st;
     idx := idx st; localLoop := localLoop st |}.

Definition setRunning (v : bool) (st : state) : state :=
  {| size := size st; activeIndex := activeIndex st; running := v;
     loopsDone := loopsDone st; targetPhi := targetPhi st;
     globeRef := globeRef st; phi := phi st; theta := theta st;
     mounted := mounted st; run_running := run_running st; pc := pc st;
     idx := idx st; localLoop := localLoop st |}.

Definition setLoopsDone (v : Z) (st : state) : state :=
  {| size := size st; activeIndex := activeIndex st; running := running st;
     loopsDone := v; targetPhi := targetPhi st;
     globeRef := globeRef st; phi := phi st; theta := theta st;
     mounted := mounted st; run_running := run_running st; pc := pc st;
     idx := idx st; localLoop := localLoop st |}.

Definition set_targetPhi (v : ref_value num) (st : state) : state :=
  {| size := size st; activeIndex := activeIndex st; running := running st;
     loopsDone := loopsDone st; targetPhi := v;
     globeRef := globeRef st; phi := phi st; theta := theta st;
     mounted := mounted st; run_running := run_running st; pc := pc st;
     idx := idx st; localLoop := localLoop st |}.

Definition set_run (p : run_pc) (i l : Z) (st : state) : state :=
  {| size := size st; activeIndex := activeIndex st; running := running st;
     loopsDone := loopsDone st; targetPhi := targetPhi st;
     globeRef := globeRef st; phi := phi st; theta := theta st;
     mounted := mounted st; run_running := run_running st; pc := p;
     idx := i; localLoop := l |}.

(** [onRender(state)]: one rendered frame. *)
Definition onRender (st : state) : state :=
  let phi' := onRender_phi (targetPhi st) (phi st) in
  {| size := size st; activeIndex := activeIndex st; running := running st;
     loopsDone := loopsDone st; targetPhi := targetPhi st;
     globeRef := Some {| snap_phi := phi'; snap_theta := theta st |};
     phi := phi'; theta := theta st;
     mounted := mounted st; run_running := run_running st; pc := pc st;
     idx := idx st; localLoop := localLoop st |}.

(** [players[i].mapCoord[1]]; [idx] always is an index of [players]. *)
Definition lon_at (i : Z) : num :=
  match nth_error players (Z.to_nat i) with
  | Some p => snd (mapCoord p)
  | None => ofZ 0
  end.

(** [run()] from the head of its [while (mounted && running)] loop, with
    locals [i] and [l], up to its next [await]. *)
Definition run_loop (i l : Z) (st : state) : state :=
  if mounted st && run_running st then
    set_run AwaitShow i l
      (setActiveIndex (Some i) (set_targetPhi (Num (lonToPhi (lon_at i))) st))
  else set_run Returned i l st.

(** The pending timer fires and [run()] resumes up to its next [await]. *)
Definition timer (st : state) : state :=
  match pc st with
  | AwaitShow =>
      if negb (mounted st) then set_run Returned (idx st) (localLoop st) st
      else set_run AwaitFade (idx st) (localLoop st) (setActiveIndex None st)
  | AwaitFade =>
      if negb (mounted st) then set_run Returned (idx st) (localLoop st) st
      else
        let i := ((idx st + 1) mod Z.of_nat (length players))%Z in
        if (i =? 0)%Z then
          let l := (localLoop st + 1)%Z in
          let st := setLoopsDone l st in
          if (LOOPS <=? l)%Z then
            set_run Returned i l (set_targetPhi Null (setRunning false st))
          else run_loop i l st
        else run_loop i (localLoop st) st
  | Returned => st
  end.

(** The [onClick] of the pin of [players[i]]. *)
Definition click (i : nat) (st : state) : state :=
  match nth_error players i with
  | Some p =>
      let st := setActiveIndex
                  (Some (findIndex (fun pl => (id pl =? id p)%Z) players)) st in
      let st := set_targetPhi (Num (lonToPhi (snd (mapCoord p)))) st in
      setRunning false st
  | None => st
  end.

(** The [onClick] of the card. *)
Definition card_click (st : state) : state := setActiveIndex None st.

(** The component once its mount effects have run: the globe is created with
    [phi = Math.PI * 0.45] and [theta = 0.45], and [run()] has executed up to
    its first [await].  The effect has an empty dependency list, so its
    closure keeps the [running] of the first render, [useState(true)]. *)
Definition mount (sz : size_t) : state :=
  run_loop 0 0
    {| size := sz; activeIndex := None; running := true; loopsDone := 0;
       targetPhi := Null; globeRef := None;
       phi := Math_PI * dec 45 100; theta := dec 45 100;
       mounted := true; run_running := true; pc := Returned;
       idx := 0; localLoop := 0 |}.

Inductive event : Type :=
| Frame : event
| Timer : event
| Click : nat -> event
| CardClick : event.

Definition step (st : state) (e : event) : state :=
  match e with
  | Frame => onRender st
  | Timer => timer st
  | Click i => click i st
  | CardClick => card_click st
  end.

Definition steps (st : state) (es : list event) : state := fold_left step es st.

(** [n] rendered frames with no other event in between. *)
Definition frames (n : nat) (st : state) : state := steps st (repeat Frame n).

(** The pins the render draws, one per player, in order. *)
Definition render_pins (st : state) : list pin_style :=
  map (fun p => pin_overlay (size st)
                  (latLngToScreen (globeRef st) true (size st)
                     (fst (mapCoord p)) (snd (mapCoord p))))
      players.

(** What the render shows for the active card. *)
Definition render_card (st : state) : option anchor :=
  match activeIndex st with
  | Some i =>
      match nth_error players (Z.to_nat i) with
      | Some p =>
          Some (card_anchor (size st)
                  (latLngToScreen (globeRef st) true (size st)
                     (fst (mapCoord p)) (snd (mapCoord p))))
      | None => None
      end
  | None => None
  end.

End Program.
End HomepageAnimation.

(** ** World *)

Module World.
Section Program.
Context {num : Type} {N : Number num}.
Local Open Scope num_scope.

(** [let phi], [let theta] of the effect. *)
Record state : Type := { phi : num; theta : num }.

(** [globeConfig.initialPhi ?? -0.6] and [globeConfig.initialTheta ?? 0.35]. *)
Definition init (initialPhi initialTheta : option num) : state :=
  {| phi := match initialPhi with Some p => p | None => - dec 6 10 end;
     theta := match initialTheta with Some t => t | None => dec 35 100 end |}.

(** [onRender]: [phi += (globeConfig.autoRotateSpeed ?? 0.0008)].  The
    component reads no target and never calls its [onReady] prop. *)
Definition onRender (autoRotateSpeed : option num) (st : state) : state :=
  {| phi := phi st + match autoRotateSpeed with
                     | Some s => s
                     | None => dec 8 10000
                     end;
     theta := theta st |}.

End Program.
End World.

(** ** GlobeWithPins *)

Module GlobeWithPins.
Section Program.
Context {num : Type} {N : Number num} {T : Trig num}.
Local Open Scope num_scope.

(** An entry of [PINS]; label, subtitle and media are display text only. *)
Record pin : Type := { id : Z; lat : num; lng : num }.

Definition PINS : list pin :=
  [ {| id := 1; lat := dec 286139 10000; lng := dec 772090 10000 |};
    {| id := 2; lat := dec 515072 10000; lng := - dec 1276 10000 |};
    {| id := 3; lat := dec 407128 10000; lng := - dec 740060 10000 |} ].

(** [globeConfig.autoRotateSpeed], [initialPhi] and [initialTheta]. *)
Definition autoRotateSpeed : num := dec 12 10000.
Definition initialPhi : num := - dec 6 10.
Definition initialTheta : num := dec 35 100.

(** The object [handleWorldReady] would store in [globeStateRef.current]. *)
Record globe_state : Type := { gs_phi : num; gs_targetPhi : ref_value num }.

(** What the source reads of [wrapperRef.current]: [offsetWidth],
    [offsetHeight], [offsetLeft] and the [left] and [top] of
    [getBoundingClientRect()]. *)
Record wrapper_el : Type := {
  offsetWidth : num;
  offsetHeight : num;
  offsetLeft : num;
  rect_left : num;
  rect_top : num
}.

(** [latLngToScreen(lat, lng)]; [scrollY] is [window.scrollY]. *)
Definition latLngToScreen (globeStateRef : option globe_state)
    (wrapperRef : option wrapper_el) (scrollY : num) (lat lng : num)
    : screen_pos num :=
  match globeStateRef, wrapperRef with
  | Some g, Some wr =>
      let phi := gs_phi g in
      let R := offsetWidth wr / ofZ 2 in
      let lambda := (lng * Math_PI) / ofZ 180 in
      let phiLat := (lat * Math_PI) / ofZ 180 in
      let x := Math_cos phiLat * Math_cos lambda in
      let y := Math_sin phiLat in
      let z := Math_cos phiLat * Math_sin lambda in
      let rot := phi in
      let xr := x * Math_cos rot + z * Math_sin rot in
      let zr := (- x) * Math_sin rot + z * Math_cos rot in
      let scale := R * dec 95 100 in
      let sx := offsetLeft wr + R + xr * scale - rect_left wr in
      let sy := rect_top wr + R - y * scale - scrollY in
      let visible := ltb (dec 2 100) zr in
      let localX := sx - rect_left wr in
      let localY := sy - rect_top wr in
      {| x := localX; y := localY; visible := visible |}
  | _, _ => {| x := ofZ (-9999); y := ofZ (-9999); visible := false |}
  end.

(** The style of a pin's overlay.  Without a wrapper element
    [wrapperRef.current?.offsetWidth] is [undefined], and every comparison
    with it is false. *)
Record pin_style : Type := {
  pin_left : num;
  pin_top : num;
  interactive : bool;
  opacity : num
}.

Definition pin_overlay (wrapperRef : option wrapper_el) (pos : screen_pos num)
    : pin_style :=
  let visible :=
    match wrapperRef with
    | Some wr =>
        visible pos && leb (ofZ 0) (x pos) && leb (x pos) (offsetWidth wr)
        && leb (ofZ 0) (y pos) && leb (y pos) (offsetHeight wr)
    | None => false
    end in
  {| pin_left := x pos; pin_top := y pos; interactive := visible;
     opacity := if visible then ofZ 1 else dec 16 100 |}.

(** The anchor [{ cardLeft, cardTop }] of the popup card;
    [wrapperRef.current?.offsetWidth ?? 680] is [width_or_680]. *)
Record anchor : Type := { cardLeft : num; cardTop : num }.

Definition width_or_680 (wrapperRef : option wrapper_el) : num :=
  match wrapperRef with
  | Some wr => offsetWidth wr
  | None => ofZ 680
  end.

Definition popup_visible (pos : screen_pos num) : bool :=
  let top := y pos - ofZ 110 in
  visible pos && ltb (ofZ 0) top.

Definition popup_anchor (wrapperRef : option wrapper_el) (pos : screen_pos num)
    : anchor :=
  let W := width_or_680 wrapperRef in
  let left := Math_max (ofZ 48) (Math_min (W - ofZ 48) (x pos)) in
  let top := y pos - ofZ 110 in
  let visible := popup_visible pos in
  let cardLeft := if visible then left else W / ofZ 2 in
  let cardTop := if visible then Math_max (ofZ 24) top else ofZ 28 in
  {| cardLeft := cardLeft; cardTop := cardTop |}.

(** The page: the two refs, [activePin], and the [World] it hosts. *)
Record state : Type := {
  globeStateRef : option globe_state;
  wrapperRef : option wrapper_el;
  activePin : option pin;
  world : World.state (num := num)
}.

(** [focusOnPin(pin)]. *)
Definition focusOnPin (p : pin) (st : state) : state :=
  let targetPhi := - ((lng p * Math_PI) / ofZ 180) in
  {| globeStateRef :=
       match globeStateRef st with
       | Some g => Some {| gs_phi := gs_phi g; gs_targetPhi := Num targetPhi |}
       | None => None
       end;
     wrapperRef := wrapperRef st;
     activePin := Some p;
     world := world st |}.

(** A rendered frame: the [onRender] of the hosted [World], which is given
    [globeConfig] and so [autoRotateSpeed]. *)
Definition frame (st : state) : state :=
  {| globeStateRef := globeStateRef st;
     wrapperRef := wrapperRef st;
     activePin := activePin st;
     world := World.onRender (Some autoRotateSpeed) (world st) |}.

(** The page once mounted on the wrapper element [wr]: [globeStateRef] is
    [useRef(null)] and [World] starts from [globeConfig]. *)
Definition mount (wr : wrapper_el) : state :=
  {| globeStateRef := None;
     wrapperRef := Some wr;
     activePin := None;
     world := World.init (Some initialPhi) (Some initialTheta) |}.

Inductive event : Type :=
| Frame : event
| PinClick : nat -> event
| CardClick : event.

Definition step (st : state) (e : event) : state :=
  match e with
  | Frame => frame st
  | PinClick i =>
      match nth_error PINS i with
      | Some p => focusOnPin p st
      | None => st
      end
  | CardClick =>
      {| globeStateRef := globeStateRef st; wrapperRef := wrapperRef st;
         activePin := None; world := world st |}
  end.

Definition steps (st : state) (es : list event) : state := fold_left step es st.

(** The pins the render draws, one per entry of [PINS], in order. *)
Definition render_pins (scrollY : num) (st : state) : list pin_style :=
  map (fun p => pin_overlay (wrapperRef st)
                  (latLngToScreen (globeStateRef st) (wrapperRef st) scrollY
                     (lat p) (lng p)))
      PINS.

(** The popup card the render draws for [activePin]. *)
Definition render_popup (scrollY : num) (st : state) : option anchor :=
  match activePin st with
  | Some p =>
      Some (popup_anchor (wrapperRef st)
              (latLngToScreen (globeStateRef st) (wrapperRef st) scrollY
                 (lat p) (lng p)))
  | None => None
  end.

End Program.
End GlobeWithPins.

(** ** The two readings of a number *)

(** Exact arithmetic over the reals. *)
Module Ideal.

#[export] Instance R_Number : Number R := {|
  ofZ := IZR;
  add := Rplus;
  sub := Rminus;
  mul := Rmult;
  div := Rdiv;
  neg := Ropp;
  ltb := fun a b => if Rlt_dec a b then true else false;
  leb := fun a b => if Rle_dec a b then true else false;
  Math_PI := PI;
  Math_max := Rmax;
  Math_min := Rmin;
  Math_round := fun r => IZR (Int_part (r + / 2))
|}.

#[export] Instance R_Trig : Trig R := {|
  Math_sin := sin;
  Math_cos := cos
|}.

End Ideal.

(** IEEE-754 binary64, the numbers a JS engine computes with. *)
Module Double.

Definition prec : Z := 53.
Definition emax : Z := 1024.

Definition double : Type := spec_float.

(** An integer literal: the integer rounded to nearest-even (exact below
    [2^53]). *)
Definition d_ofZ (z : Z) : double := binary_normalize prec emax z 0 false.

(** [Math.PI], the double [0x1.921fb54442d18p+1]. *)
Definition d_PI : double := S754_finite false 7074237752028440 (-51).

(** [Math.max(a, b)]: NaN when either is NaN, and [-0] counts as smaller
    than [+0]. *)
Definition d_max (a b : double) : double :=
  match SFcompare a b with
  | None => S754_nan
  | Some Lt => b
  | Some Gt => a
  | Some Eq => match a with S754_zero true => b | _ => a end
  end.

(** [Math.min(a, b)]. *)
Definition d_min (a b : double) : double :=
  match SFcompare a b with
  | None => S754_nan
  | Some Lt => a
  | Some Gt => b
  | Some Eq => match a with S754_zero false => b | _ => a end
  end.

(** [Math.round(v)]: the integer nearest to [v], ties toward [+infinity];
    NaN, the infinities, the zeros and the integers are returned as they
    are, and a result of zero keeps the sign of [v]. *)
Definition d_round (v : double) : double :=
  match v with
  | S754_finite s m e =>
      match e with
      | Zneg k =>
          let n := if s
                   then ((Z.shiftl 1 (Zpos k) - 2 * Zpos m) / Z.shiftl 2 (Zpos k))%Z
                   else Z.shiftr (Zpos m + Z.shiftl 1 (Zpos k - 1)) (Zpos k) in
          if (n =? 0)%Z then S754_zero s else d_ofZ n
      | _ => v
      end
  | _ => v
  end.

#[export] Instance D_Number : Number double := {|
  ofZ := d_ofZ;
  add := SFadd prec emax;
  sub := SFsub prec emax;
  mul := SFmul prec emax;
  div := SFdiv prec emax;
  neg := SFopp;
  ltb := SFltb;
  leb := SFleb;
  Math_PI := d_PI;
  Math_max := d_max;
  Math_min := d_min;
  Math_round := d_round
|}.

(** [Number.isFinite(v)]. *)
Definition is_finite (v : double) : bool :=
  match v with
  | S754_zero _ | S754_finite _ _ _ => true
  | S754_infinity _ | S754_nan => false
  end.

Definition is_nan (v : double) : bool :=
  match v with
  | S754_nan => true
  | _ => false
  end.

(** The [phi] the globe of [HomepageAnimation] starts from,
    [Math.PI * 0.45]. *)
Definition phi_init : double := SFmul prec emax d_PI (SFdiv prec emax (d_ofZ 45) (d_ofZ 100)).

(** *** The value of a double

    [B2R v] is the real number a finite double denotes; it is zero for the
    two zeros (and, by convention, for NaN and the infinities, which
    [is_finite] excludes). *)
Definition bpow (e : Z) : R := powerRZ 2 e.

Definition F2R (s : bool) (m : Z) (e : Z) : R :=
  ((if s then - IZR m else IZR m) * bpow e)%R.

Definition B2R (v : double) : R :=
  match v with
  | S754_finite s m e => F2R s (Zpos m) e
  | _ => 0%R
  end.

(** [valid v]: the mantissa and the exponent of [v] are those of a binary64
    number (at most 53 bits, normalised, exponent within range). *)
Definition valid (v : double) : bool := valid_binary prec emax v.

(** A finite binary64 number. *)
Definition representable (v : double) : Prop :=
  is_finite v = true /\ valid v = true.

(** [within k v]: a finite binary64 number of magnitude at most [2^k]. *)
Definition within (k : Z) (v : double) : Prop :=
  representable v /\ (Rabs (B2R v) <= bpow k)%R.

(** [faithful r x]: [r] is a finite binary64 number and no binary64 number
    lies strictly between [r] and the real number [x], so [r] is [x] itself
    when [x] is a binary64 number and one of its two neighbours otherwise.
    The round-to-nearest-even result of an operation is faithful to the
    exact result. *)
Definition faithful (r : double) (x : R) : Prop :=
  representable r /\
  forall v, representable v ->
            ((B2R v <= x)%R -> (B2R v <= B2R r)%R) /\
            ((x <= B2R v)%R -> (B2R r <= B2R v)%R).

(** The double with mantissa [m >= 0], exponent [e] and sign [s]. *)
Definition mk_float (s : bool) (m : Z) (e : Z) : double :=
  match m with
  | Zpos p => S754_finite s p e
  | _ => S754_zero s
  end.

(** The double [2^K]. *)
Definition pow2_float (K : Z) : double :=
  mk_float false (2 ^ (K - Z.max (K - 52) (-1074))) (Z.max (K - 52) (-1074)).

(** [n] applications of [f]. *)
Fixpoint iterN {A : Type} (f : A -> A) (n : nat) (x : A) : A :=
  match n with
  | O => x
  | S n => f (iterN f n x)
  end.

End Double.

(** ** The locals of the projection

    [xr] and [zr] of both [latLngToScreen], as functions of the latitude,
    the longitude and the rotation. *)
Section Rotated.
Context {num : Type} {N : Number num} {T : Trig num}.
Local Open Scope num_scope.

Definition xr_of (lat lng rot : num) : num :=
  let lambda := (lng * Math_PI) / ofZ 180 in
  let phiLat := (lat * Math_PI) / ofZ 180 in
  let x := Math_cos phiLat * Math_cos lambda in
  let z := Math_cos phiLat * Math_sin lambda in
  x * Math_cos rot + z * Math_sin rot.

Definition y_of (lat : num) : num := Math_sin ((lat * Math_PI) / ofZ 180).

Definition zr_of (lat lng rot : num) : num :=
  let lambda := (lng * Math_PI) / ofZ 180 in
  let phiLat := (lat * Math_PI) / ofZ 180 in
  let x := Math_cos phiLat * Math_cos lambda in
  let z := Math_cos phiLat * Math_sin lambda in
  (- x) * Math_sin rot + z * Math_cos rot.

End Rotated.

Module H := HomepageAnimation.
Module G := GlobeWithPins.

(** ** Sessions

    The events of one player's turn on a display that renders [fps] frames
    per second: the frames rendered while the card shows ([SHOW_MS]), the
    timer, the frames rendered while it fades ([FADE_MS]), the timer.  The
    automatic sequence is three turns, one per player. *)
Definition turn_events (fps : Z) : list H.event :=
  repeat H.Frame (Z.to_nat (H.SHOW_MS * fps / 1000)) ++ [H.Timer] ++
  repeat H.Frame (Z.to_nat (H.FADE_MS * fps / 1000)) ++ [H.Timer].

Definition autoplay_events (fps : Z) : list H.event :=
  turn_events fps ++ turn_events fps ++ turn_events fps.

(** Whether an event is a rendered frame. *)
Definition is_frame (e : H.event) : bool :=
  match e with
  | H.Frame => true
  | _ => false
  end.

Unset Implicit Arguments.

(** * Facts that hold for every reading of a number *)

Section SequenceFacts.
Context {num : Type} {N : Number num}.

(** ** [findIndex] *)

Lemma findIndex_from_range {A : Type} (pred : A -> bool) (l : list A) :
  forall i, findIndex_from pred l i = (-1)%Z \/
            (i <= findIndex_from pred l i < i + Z.of_nat (length l))%Z.
Proof.
  induction l as [|a l IH]; intros i; cbn [findIndex_from length].
  - left. reflexivity.
  - destruct (pred a).
    + right. lia.
    + destruct (IH (i + 1)%Z) as [E | R]; [left; exact E | right; lia].
Qed.

Lemma findIndex_from_none {A : Type} (pred : A -> bool) (l : list A) :
  forall i, (0 <= i)%Z ->
    (findIndex_from pred l i = (-1)%Z <-> forallb (fun a => negb (pred a)) l = true).
Proof.
  induction l as [|a l IH]; intros i Hi; cbn [findIndex_from forallb].
  - split; reflexivity.
  - destruct (pred a); cbn [negb andb].
    + split; [lia | discriminate].
    + apply IH. lia.
Qed.

Lemma findIndex_from_first {A : Type} (pred : A -> bool) (l : list A) :
  forall i k, (0 <= i)%Z -> findIndex_from pred l i = (i + Z.of_nat k)%Z ->
    (exists a, nth_error l k = Some a /\ pred a = true) /\
    forall j a, (j < k)%nat -> nth_error l j = Some a -> pred a = false.
Proof.
  induction l as [|a l IH]; intros i k Hi E; cbn [findIndex_from] in E.
  - lia.
  - destruct (pred a) eqn:Ea.
    + assert (k = 0%nat) by lia. subst k. split.
      * exists a. split; [reflexivity | exact Ea].
      * intros j b Hj. lia.
    + destruct k as [|k].
      * destruct (findIndex_from_range pred l (i + 1)%Z) as [E1 | R]; lia.
      * destruct (IH (i + 1)%Z k) as [Hex Hbefore]; [lia | lia | ].
        split; [exact Hex | ].
        intros [|j] b Hj Hb; cbn [nth_error] in Hb.
        -- injection Hb as <-. exact Ea.
        -- apply (Hbefore j b); [lia | exact Hb].
Qed.

(** ** Frames *)

Lemma frames_snoc (n : nat) (st : H.state) :
  H.frames (S n) st = H.onRender (H.frames n st).
Proof.
  unfold H.frames, H.steps. replace (S n) with (n + 1)%nat by lia.
  rewrite repeat_app, fold_left_app. reflexivity.
Qed.

Lemma frames_keep (n : nat) (st : H.state) :
  H.targetPhi (H.frames n st) = H.targetPhi st /\
  H.activeIndex (H.frames n st) = H.activeIndex st /\
  H.running (H.frames n st) = H.running st /\
  H.pc (H.frames n st) = H.pc st /\
  H.theta (H.frames n st) = H.theta st.
Proof.
  induction n as [|n IH].
  - repeat split.
  - rewrite frames_snoc. destruct IH as (H1 & H2 & H3 & H4 & H5).
    unfold H.onRender.
    cbn [H.targetPhi H.activeIndex H.running H.pc H.theta].
    repeat split; assumption.
Qed.

Lemma frames_seek (t : num) (n : nat) (st : H.state) :
  H.targetPhi st = Num t ->
  H.phi (H.frames n st) = H.seek_n H.strength t n (H.phi st).
Proof.
  intros Ht. induction n as [|n IH].
  - reflexivity.
  - rewrite frames_snoc. cbn [H.seek_n]. rewrite <- IH.
    unfold H.onRender. cbn [H.phi].
    destruct (frames_keep n st) as (H1 & _). rewrite H1, Ht. reflexivity.
Qed.

(** ** Clicks and timers *)

Lemma click_sets_active_and_flag (st : H.state) (i : nat) :
  (i < length (H.players (num := num)))%nat ->
  H.activeIndex (H.click i st) = Some (Z.of_nat i) /\
  H.running (H.click i st) = false /\
  H.targetPhi (H.click i st) = Num (H.lonToPhi (H.lon_at (Z.of_nat i))).
Proof.
  intros Hi. cbn [length H.players] in Hi.
  destruct i as [|[|[|i]]]; try lia; repeat split; reflexivity.
Qed.

Lemma click_keeps_run (st : H.state) (i : nat) :
  H.pc (H.click i st) = H.pc st /\ H.idx (H.click i st) = H.idx st /\
  H.localLoop (H.click i st) = H.localLoop st /\
  H.run_running (H.click i st) = H.run_running st /\
  H.mounted (H.click i st) = H.mounted st /\
  H.phi (H.click i st) = H.phi st.
Proof.
  unfold H.click. destruct (nth_error H.players i); repeat split; reflexivity.
Qed.

Lemma timer_at_loop_limit (st : H.state) :
  H.pc st = H.AwaitFade ->
  H.mounted st = true ->
  ((H.idx st + 1) mod 3 = 0)%Z ->
  (H.LOOPS <= H.localLoop st + 1)%Z ->
  H.timer st =
    H.set_run H.Returned 0 (H.localLoop st + 1)
      (H.set_targetPhi Null
         (H.setRunning false (H.setLoopsDone (H.localLoop st + 1) st))).
Proof.
  intros Hpc Hm Hidx Hl. unfold H.timer. rewrite Hpc, Hm.
  cbn [negb]. change (Z.of_nat (length H.players)) with 3%Z.
  rewrite Hidx. cbn [Z.eqb].
  apply Z.leb_le in Hl.
  change (H.localLoop (H.setLoopsDone (H.localLoop st + 1) st))
    with (H.localLoop st).
  cbv zeta. rewrite Hl. reflexivity.
Qed.

Lemma five_timers (sz : H.size_t) :
  let st := H.steps (H.mount sz) [H.Timer; H.Timer; H.Timer; H.Timer; H.Timer] in
  H.pc st = H.AwaitFade /\ H.mounted st = true /\ H.idx st = 2%Z /\
  H.localLoop st = 0%Z /\ H.activeIndex st = None /\
  H.phi st = H.phi (H.mount sz).
Proof. cbv zeta. repeat split. Qed.

Lemma six_timers (sz : H.size_t) :
  let st := H.steps (H.mount sz)
              [H.Timer; H.Timer; H.Timer; H.Timer; H.Timer; H.Timer] in
  H.running st = false /\ H.pc st = H.Returned /\ H.targetPhi st = Null /\
  H.activeIndex st = None.
Proof. cbv zeta. repeat split. Qed.

(** C1 (the code diverges from the claim).  A click on the pin of player 0
    while the card of player 1 shows sets [activeIndex] to 0 and [running] to
    false, as claimed; but [run()] tests the [running] its closure captured,
    so the next timer hides the clicked card and the one after it advances
    the sequence to player 2 and retargets the rotation: the automatic
    sequence is not disabled. *)
Theorem click_does_not_stop_sequence (sz : H.size_t) :
  let showing1 := H.steps (H.mount sz) [H.Timer; H.Timer] in
  let clicked := H.step showing1 (H.Click 0) in
  H.activeIndex showing1 = Some 1%Z /\
  H.activeIndex clicked = Some 0%Z /\
  H.running clicked = false /\
  H.activeIndex (H.steps clicked [H.Timer]) = None /\
  H.activeIndex (H.steps clicked [H.Timer; H.Timer]) = Some 2%Z /\
  H.targetPhi (H.steps clicked [H.Timer; H.Timer]) = Num (H.lonToPhi (ofZ (-2))).
Proof.
  cbv zeta. split; [reflexivity | ].
  split; [reflexivity | ]. split; [reflexivity | ].
  split; [reflexivity | ]. split; reflexivity.
Qed.

(** ** What an event changes

    Only a frame changes [phi]; the index of [run()] stays an index of
    [players]; and [targetPhi.current] only ever receives [null] or
    [lonToPhi] of a player's longitude. *)

Lemma idle_frames (st : H.state) (n : nat) :
  H.targetPhi st = Null ->
  H.phi (H.frames (S n) st) = add (H.phi (H.frames n st)) H.idle_step.
Proof.
  intros Ht. rewrite frames_snoc. unfold H.onRender. cbn [H.phi].
  destruct (frames_keep n st) as (E & _). rewrite E, Ht. reflexivity.
Qed.





Lemma mount_target (sz : H.size_t) :
  H.targetPhi (H.mount sz) = Num (H.lonToPhi (ofZ 3)) /\ H.idx (H.mount sz) = 0%Z.
Proof. split; reflexivity. Qed.

(** ** Frames and the card sequence

    A frame changes [phi] and [globeRef.current] only, and what a timer or
    a click does never depends on them. *)

Lemma frame_keeps_sequence (st : H.state) :
  let st' := H.step st H.Frame in
  H.activeIndex st' = H.activeIndex st /\ H.running st' = H.running st /\
  H.loopsDone st' = H.loopsDone st /\ H.targetPhi st' = H.targetPhi st /\
  H.mounted st' = H.mounted st /\ H.run_running st' = H.run_running st /\
  H.pc st' = H.pc st /\ H.idx st' = H.idx st /\ H.localLoop st' = H.localLoop st.
Proof. cbv zeta. repeat split. Qed.

Lemma step_sequence_determined (st1 st2 : H.state) (e : H.event) :
  H.activeIndex st1 = H.activeIndex st2 -> H.running st1 = H.running st2 ->
  H.loopsDone st1 = H.loopsDone st2 -> H.targetPhi st1 = H.targetPhi st2 ->
  H.mounted st1 = H.mounted st2 -> H.run_running st1 = H.run_running st2 ->
  H.pc st1 = H.pc st2 -> H.idx st1 = H.idx st2 -> H.localLoop st1 = H.localLoop st2 ->
  let a := H.step st1 e in
  let b := H.step st2 e in
  H.activeIndex a = H.activeIndex b /\ H.running a = H.running b /\
  H.loopsDone a = H.loopsDone b /\ H.targetPhi a = H.targetPhi b /\
  H.mounted a = H.mounted b /\ H.run_running a = H.run_running b /\
  H.pc a = H.pc b /\ H.idx a = H.idx b /\ H.localLoop a = H.localLoop b.
Proof.
  intros E1 E2 E3 E4 E5 E6 E7 E8 E9. cbv zeta.
  destruct st1 as [sz1 ai1 r1 ld1 tp1 gr1 phi1 th1 m1 rr1 pc1 idx1 ll1].
  destruct st2 as [sz2 ai2 r2 ld2 tp2 gr2 phi2 th2 m2 rr2 pc2 idx2 ll2].
  cbn [H.activeIndex H.running H.loopsDone H.targetPhi H.mounted H.run_running
       H.pc H.idx H.localLoop] in E1, E2, E3, E4, E5, E6, E7, E8, E9.
  subst ai2 r2 ld2 tp2 m2 rr2 pc2 idx2 ll2.
  destruct e as [| |i|]; cbn [H.step].
  - repeat split.
  - unfold H.timer, H.run_loop.
    cbn [H.pc H.mounted H.idx H.localLoop H.run_running H.setLoopsDone].
    destruct pc1; destruct m1; cbn [negb andb]; try (repeat split).
    all: destruct ((idx1 + 1) mod Z.of_nat (length H.players) =? 0)%Z; cbv zeta;
      try destruct (H.LOOPS <=? ll1 + 1)%Z; try destruct rr1; reflexivity.
  - unfold H.click. destruct (nth_error H.players i); repeat split.
  - repeat split.
Qed.

Lemma steps_sequence_determined (es : list H.event) :
  forall st1 st2 : H.state,
  H.activeIndex st1 = H.activeIndex st2 -> H.running st1 = H.running st2 ->
  H.loopsDone st1 = H.loopsDone st2 -> H.targetPhi st1 = H.targetPhi st2 ->
  H.mounted st1 = H.mounted st2 -> H.run_running st1 = H.run_running st2 ->
  H.pc st1 = H.pc st2 -> H.idx st1 = H.idx st2 -> H.localLoop st1 = H.localLoop st2 ->
  let a := H.steps st1 es in
  let b := H.steps st2 (filter (fun e => negb (is_frame e)) es) in
  H.activeIndex a = H.activeIndex b /\ H.running a = H.running b /\
  H.loopsDone a = H.loopsDone b /\ H.targetPhi a = H.targetPhi b /\
  H.mounted a = H.mounted b /\ H.run_running a = H.run_running b /\
  H.pc a = H.pc b /\ H.idx a = H.idx b /\ H.localLoop a = H.localLoop b.
Proof.
  induction es as [|e es IH]; intros st1 st2 E1 E2 E3 E4 E5 E6 E7 E8 E9; cbv zeta.
  - repeat split; assumption.
  - change (H.steps st1 (e :: es)) with (H.steps (H.step st1 e) es).
    destruct e as [| |i|]; cbn [filter is_frame negb].
    + destruct (frame_keeps_sequence st1) as (F1 & F2 & F3 & F4 & F5 & F6 & F7 & F8 & F9).
      apply IH; congruence.
    + change (H.steps st2 (H.Timer :: filter (fun e => negb (is_frame e)) es))
        with (H.steps (H.step st2 H.Timer) (filter (fun e => negb (is_frame e)) es)).
      destruct (step_sequence_determined st1 st2 H.Timer E1 E2 E3 E4 E5 E6 E7 E8 E9)
        as (F1 & F2 & F3 & F4 & F5 & F6 & F7 & F8 & F9).
      apply IH; assumption.
    + change (H.steps st2 (H.Click i :: filter (fun e => negb (is_frame e)) es))
        with (H.steps (H.step st2 (H.Click i)) (filter (fun e => negb (is_frame e)) es)).
      destruct (step_sequence_determined st1 st2 (H.Click i) E1 E2 E3 E4 E5 E6 E7 E8 E9)
        as (F1 & F2 & F3 & F4 & F5 & F6 & F7 & F8 & F9).
      apply IH; assumption.
    + change (H.steps st2 (H.CardClick :: filter (fun e => negb (is_frame e)) es))
        with (H.steps (H.step st2 H.CardClick) (filter (fun e => negb (is_frame e)) es)).
      destruct (step_sequence_determined st1 st2 H.CardClick E1 E2 E3 E4 E5 E6 E7 E8 E9)
        as (F1 & F2 & F3 & F4 & F5 & F6 & F7 & F8 & F9).
      apply IH; assumption.
Qed.

(** X3.  The frames rendered during a session never change which card
    shows, whether the sequence runs, the target of the rotation or the
    number of loops done: they are those of the same session with its
    frames left out. *)
Theorem frames_never_change_the_card_sequence (sz : H.size_t) (es : list H.event) :
  let a := H.steps (H.mount sz) es in
  let b := H.steps (H.mount sz) (filter (fun e => negb (is_frame e)) es) in
  H.activeIndex a = H.activeIndex b /\
  H.running a = H.running b /\
  H.targetPhi a = H.targetPhi b /\
  H.loopsDone a = H.loopsDone b.
Proof.
  cbv zeta.
  destruct (steps_sequence_determined es (H.mount sz) (H.mount sz))
    as (F1 & F2 & F3 & F4 & _); try reflexivity.
  repeat split; assumption.
Qed.

(** ** The page of [GlobeWithPins] *)

Lemma page_step_no_state_ref (st : G.state) (e : G.event) :
  G.globeStateRef st = None -> G.globeStateRef (G.step st e) = None.
Proof.
  intros Hn. destruct e as [|i|]; cbn [G.step].
  - exact Hn.
  - destruct (nth_error G.PINS i); [ | exact Hn ].
    unfold G.focusOnPin. cbn [G.globeStateRef]. rewrite Hn. reflexivity.
  - exact Hn.
Qed.

Lemma page_steps_no_state_ref (es : list G.event) :
  forall st : G.state,
    G.globeStateRef st = None -> G.globeStateRef (G.steps st es) = None.
Proof.
  unfold G.steps. induction es as [|e es IH]; intros st Hn; [exact Hn | ].
  cbn [fold_left]. apply IH, page_step_no_state_ref, Hn.
Qed.

End SequenceFacts.

Section ProjectionGuard.
Context {num : Type} {N : Number num} {T : Trig num}.

(** C9.  While [globeRef.current] (or [globeStateRef.current]) or
    [wrapperRef.current] is still null, both [latLngToScreen] return
    [{ x: -9999, y: -9999, visible: false }] whatever latitude and longitude
    they are given. *)
Theorem latLngToScreen_not_ready_sentinel
    (g : option H.globe_snapshot) (ready : bool) (sz : H.size_t)
    (gs : option G.globe_state) (wr : option G.wrapper_el) (scrollY : num)
    (lat lng : num) :
  let sentinel := {| x := ofZ (-9999); y := ofZ (-9999); visible := false |} in
  H.latLngToScreen None ready sz lat lng = sentinel /\
  H.latLngToScreen g false sz lat lng = sentinel /\
  G.latLngToScreen None wr scrollY lat lng = sentinel /\
  G.latLngToScreen gs None scrollY lat lng = sentinel.
Proof.
  cbv zeta. unfold H.latLngToScreen, G.latLngToScreen.
  destruct g, ready, gs, wr; repeat split; reflexivity.
Qed.

End ProjectionGuard.

Section PageFacts.
Context {num : Type} {N : Number num} {T : Trig num}.

(** ** What the page of [GlobeWithPins] draws *)

Lemma page_step_keeps_wrapper (st : G.state) (e : G.event) :
  G.wrapperRef (G.step st e) = G.wrapperRef st.
Proof.
  destruct e as [|i|]; cbn [G.step]; try reflexivity.
  destruct (nth_error G.PINS i); reflexivity.
Qed.

Lemma page_steps_keep_wrapper (es : list G.event) :
  forall st : G.state, G.wrapperRef (G.steps st es) = G.wrapperRef st.
Proof.
  unfold G.steps. induction es as [|e es IH]; intros st; [reflexivity|].
  cbn [fold_left]. rewrite IH. apply page_step_keeps_wrapper.
Qed.

(** X1.  In [GlobeWithPins], whatever is clicked and however many frames
    are rendered, every pin is drawn at the sentinel position
    (-9999, -9999), does not receive pointer events and has opacity 0.16:
    [globeStateRef.current] stays null because [World] never calls
    [onReady]. *)
Theorem page_pins_never_interactive
    (wr : G.wrapper_el) (scrollY : num) (es : list G.event) :
  G.render_pins scrollY (G.steps (G.mount wr) es)
  = map (fun _ => {| G.pin_left := ofZ (-9999); G.pin_top := ofZ (-9999);
                     G.interactive := false; G.opacity := dec 16 100 |})
        (G.PINS (num := num)).
Proof.
  unfold G.render_pins.
  rewrite (page_steps_no_state_ref es (G.mount wr) eq_refl).
  rewrite page_steps_keep_wrapper. reflexivity.
Qed.

(** X2.  In [GlobeWithPins] the popup of the active pin is always anchored
    at the fallback position, the horizontal centre [offsetWidth / 2] and
    top 28, never above its pin. *)
Theorem page_popup_always_top_centre
    (wr : G.wrapper_el) (scrollY : num) (es : list G.event) :
  let st := G.steps (G.mount wr) es in
  G.render_popup scrollY st
  = match G.activePin st with
    | Some _ => Some {| G.cardLeft := div (G.offsetWidth wr) (ofZ 2);
                        G.cardTop := ofZ 28 |}
    | None => None
    end.
Proof.
  cbv zeta. unfold G.render_popup.
  rewrite (page_steps_no_state_ref es (G.mount wr) eq_refl).
  rewrite page_steps_keep_wrapper.
  destruct (G.activePin (G.steps (G.mount wr) es)); reflexivity.
Qed.

End PageFacts.

(** * Facts over the reals

    Two values of the source are compared here in exact arithmetic: a depth
    of [-1] with the threshold [0.02], and two rotation angles about [0.05]
    apart.  Both margins exceed any rounding error of binary64 by more than
    ten orders of magnitude. *)

Section IdealFacts.
Import Ideal.
Local Open Scope R_scope.

(** ** Comparisons and literals *)

Lemma ltb_false_iff (a b : R) : ltb a b = false <-> b <= a.
Proof.
  cbn. destruct (Rlt_dec a b); split; intros; try reflexivity;
    try discriminate; lra.
Qed.

Lemma dec_ideal (p q : Z) : dec p q = IZR p / IZR q.
Proof. reflexivity. Qed.

Lemma deg_rad (a : R) : - (a * 180 / PI) * PI / 180 = - a.
Proof. field. apply PI_neq0. Qed.

(** ** The rotated point *)

Lemma zr_of_ideal (lat lng rot : R) :
  zr_of lat lng rot = cos (lat * PI / 180) * sin (lng * PI / 180 - rot).
Proof. unfold zr_of. cbn. rewrite sin_minus. ring. Qed.

Lemma zr_of_center (phi : R) :
  zr_of 0 (- (phi * 180 / PI)) phi = - sin (2 * phi).
Proof.
  rewrite zr_of_ideal, deg_rad.
  replace (0 * PI / 180) with 0 by (unfold Rdiv; ring).
  rewrite cos_0. replace (- phi - phi) with (- (2 * phi)) by ring.
  rewrite sin_neg. ring.
Qed.

(** ** What [latLngToScreen] returns once ready *)

Lemma home_visible (g : H.globe_snapshot) (sz : H.size_t) (lat lng : R) :
  visible (H.latLngToScreen (Some g) true sz lat lng)
  = ltb (dec 2 100) (zr_of lat lng (H.snap_phi g)).
Proof. reflexivity. Qed.

Lemma pins_visible (g : G.globe_state) (wr : G.wrapper_el) (sy lat lng : R) :
  visible (G.latLngToScreen (Some g) (Some wr) sy lat lng)
  = ltb (dec 2 100) (zr_of lat lng (G.gs_phi g)).
Proof. reflexivity. Qed.

(** C2 (the code diverges from the claim).  At [phi = PI / 4] the point the
    claim calls rotation-facing, latitude 0 and longitude [-phi] in degrees
    (that is -45), has depth [zr = - sin (2 * phi) = -1]: both
    [latLngToScreen] return [visible = false] for it. *)
Theorem center_point_hidden (sz : H.size_t) (th : R)
    (wr : G.wrapper_el) (tp : ref_value R) (scrollY : R) :
  let phi := PI / 4 in
  let lng := - (phi * 180 / PI) in
  lng = -45 /\
  zr_of 0 lng phi = -1 /\
  visible (H.latLngToScreen
             (Some {| H.snap_phi := phi; H.snap_theta := th |})
             true sz 0 lng) = false /\
  visible (G.latLngToScreen
             (Some {| G.gs_phi := phi; G.gs_targetPhi := tp |})
             (Some wr) scrollY 0 lng) = false.
Proof.
  cbv zeta.
  assert (Hz : zr_of 0 (- (PI / 4 * 180 / PI)) (PI / 4) = -1).
  { rewrite zr_of_center. replace (2 * (PI / 4)) with (PI / 2) by field.
    rewrite sin_PI2. reflexivity. }
  split; [ field; apply PI_neq0 | ].
  split; [ exact Hz | ].
  rewrite home_visible, pins_visible. cbn [H.snap_phi G.gs_phi].
  rewrite Hz. split; apply ltb_false_iff; rewrite dec_ideal; lra.
Qed.

(** ** The frame of [World] *)

(** C4 (the code diverges from the claim).  In [GlobeWithPins] a click on
    the pin of New Delhi leaves [globeStateRef.current] null, so no target
    is stored, and the next frame of [World] adds [autoRotateSpeed = 0.0012]
    to [phi = -0.6]; the claimed step toward [-radians(77.209)] would have
    given a smaller [phi]. *)
Theorem world_ignores_clicked_target (wr : G.wrapper_el) :
  let st := G.step (G.mount wr) (G.PinClick 0) in
  let phi0 := World.phi (G.world st) in
  let phi1 := World.phi (G.world (G.step st G.Frame)) in
  let target := - (772090 / 10000 * PI / 180) in
  G.globeStateRef st = None /\
  phi0 = - (6 / 10) /\
  phi1 = phi0 + 12 / 10000 /\
  phi0 + (target - phi0) * (6 / 100) < phi1.
Proof.
  cbv zeta.
  assert (E0 : World.phi (G.world (G.step (G.mount wr) (G.PinClick 0)))
               = - (6 / 10)) by reflexivity.
  assert (E1 : World.phi (G.world (G.step (G.step (G.mount wr) (G.PinClick 0))
                                     G.Frame))
               = World.phi (G.world (G.step (G.mount wr) (G.PinClick 0)))
                 + 12 / 10000) by reflexivity.
  split; [reflexivity | split; [exact E0 | split; [exact E1 | ] ] ].
  rewrite E1, E0. pose proof PI2_1. lra.
Qed.

End IdealFacts.

(** * Binary64 arithmetic

    [spec_float] defines the operations of binary64 on mantissas and
    exponents.  This part relates them to the real numbers: an operation
    whose exact result is below [2^1023] in magnitude returns a finite
    double that is a faithful rounding of that result. *)

Section Digits.
Import Double.
Local Open Scope Z_scope.

(** ** Binary digits *)

Lemma digits2_pos_bounds (p : positive) :
  2 ^ (Zpos (digits2_pos p) - 1) <= Zpos p < 2 ^ (Zpos (digits2_pos p)).
Proof.
  induction p as [p IH | p IH | ]; cbn [digits2_pos].
  - rewrite Pos2Z.inj_succ.
    replace (Z.succ (Zpos (digits2_pos p)) - 1) with (Z.succ (Zpos (digits2_pos p) - 1)) by lia.
    rewrite !Z.pow_succ_r by lia. lia.
  - rewrite Pos2Z.inj_succ.
    replace (Z.succ (Zpos (digits2_pos p)) - 1) with (Z.succ (Zpos (digits2_pos p) - 1)) by lia.
    rewrite !Z.pow_succ_r by lia. lia.
  - cbn. lia.
Qed.

Lemma Zdigits2_nonneg (m : Z) : 0 <= Zdigits2 m.
Proof. destruct m; cbn; lia. Qed.

Lemma Zdigits2_bounds (m : Z) :
  0 < m -> 2 ^ (Zdigits2 m - 1) <= m < 2 ^ (Zdigits2 m).
Proof. destruct m as [|p|p]; try lia. intros _. apply digits2_pos_bounds. Qed.

Lemma Zdigits2_pos (m : Z) : 0 < m -> 0 < Zdigits2 m.
Proof. destruct m; cbn; lia. Qed.

Lemma Zdigits2_unique (m d : Z) :
  2 ^ (d - 1) <= m < 2 ^ d -> 0 < m -> Zdigits2 m = d.
Proof.
  intros [Hlo Hhi] Hm.
  destruct (Zdigits2_bounds m Hm) as [Hlo' Hhi'].
  pose proof (Zdigits2_pos m Hm) as Hd.
  assert (Hdpos : 0 < d).
  { destruct (Z_lt_le_dec 0 d) as [|Hneg]; [assumption|].
    destruct (Z.eq_dec d 0) as [->|]; [cbn in Hhi; lia|].
    rewrite (Z.pow_neg_r 2 d) in Hhi by lia. lia. }
  destruct (Z_lt_le_dec (Zdigits2 m) d) as [Hlt|Hge].
  - assert (2 ^ (Zdigits2 m) <= 2 ^ (d - 1)) by (apply Z.pow_le_mono_r; lia). lia.
  - destruct (Z_lt_le_dec d (Zdigits2 m)) as [Hlt|Hge']; [|lia].
    assert (2 ^ d <= 2 ^ (Zdigits2 m - 1)) by (apply Z.pow_le_mono_r; lia). lia.
Qed.

Lemma Zdigits2_le (m d : Z) : 0 <= d -> 0 <= m < 2 ^ d -> Zdigits2 m <= d.
Proof.
  intros Hd [H0 Hm]. destruct (Z.eq_dec m 0) as [->|Hn]; [cbn; lia|].
  destruct (Zdigits2_bounds m ltac:(lia)) as [Hlo _].
  destruct (Z_lt_le_dec d (Zdigits2 m)) as [Hlt|]; [|lia].
  assert (2 ^ d <= 2 ^ (Zdigits2 m - 1)) by (apply Z.pow_le_mono_r; lia). lia.
Qed.

Lemma Zdigits2_ge (m d : Z) : 2 ^ (d - 1) <= m -> 0 < m -> d <= Zdigits2 m.
Proof.
  intros Hlo Hm. destruct (Zdigits2_bounds m Hm) as [_ Hhi].
  destruct (Z_lt_le_dec (Zdigits2 m) d) as [Hlt|]; [|lia].
  assert (2 ^ (Zdigits2 m) <= 2 ^ (d - 1)) by (apply Z.pow_le_mono_r; pose proof (Zdigits2_pos m Hm); lia). lia.
Qed.

Lemma Zdigits2_div_pow (m n : Z) :
  0 < m -> 0 <= n -> n < Zdigits2 m -> Zdigits2 (m / 2 ^ n) = Zdigits2 m - n.
Proof.
  intros Hm Hn Hlt.
  destruct (Zdigits2_bounds m Hm) as [Hlo Hhi].
  assert (Hp : 0 < 2 ^ n) by (apply Z.pow_pos_nonneg; lia).
  assert (E1 : 2 ^ (Zdigits2 m - 1) = 2 ^ (Zdigits2 m - n - 1) * 2 ^ n).
  { rewrite <- Z.pow_add_r by lia. f_equal. lia. }
  assert (E2 : 2 ^ (Zdigits2 m) = 2 ^ (Zdigits2 m - n) * 2 ^ n).
  { rewrite <- Z.pow_add_r by lia. f_equal. lia. }
  assert (Hq1 : 2 ^ (Zdigits2 m - n - 1) <= m / 2 ^ n).
  { apply Z.div_le_lower_bound; [lia|]. rewrite Z.mul_comm. lia. }
  assert (Hq2 : m / 2 ^ n < 2 ^ (Zdigits2 m - n)).
  { apply Z.div_lt_upper_bound; [lia|]. rewrite Z.mul_comm. lia. }
  apply Zdigits2_unique.
  - split; [exact Hq1 | exact Hq2].
  - assert (0 < 2 ^ (Zdigits2 m - n - 1)) by (apply Z.pow_pos_nonneg; lia). lia.
Qed.

Lemma Zdigits2_div_pow_zero (m n : Z) :
  0 <= m -> 0 <= n -> Zdigits2 m <= n -> m / 2 ^ n = 0.
Proof.
  intros Hm Hn Hle. apply Z.div_small. split; [lia|].
  destruct (Z.eq_dec m 0) as [->|]; [apply Z.pow_pos_nonneg; lia|].
  destruct (Zdigits2_bounds m ltac:(lia)) as [_ Hhi].
  assert (2 ^ Zdigits2 m <= 2 ^ n) by (apply Z.pow_le_mono_r; lia). lia.
Qed.

Lemma Zdigits2_succ (m : Z) : 0 <= m -> Zdigits2 (m + 1) <= Zdigits2 m + 1.
Proof.
  intros Hm. destruct (Z.eq_dec m 0) as [->|]; [cbn; lia|].
  destruct (Zdigits2_bounds m ltac:(lia)) as [_ Hhi].
  pose proof (Zdigits2_pos m ltac:(lia)).
  apply Zdigits2_le; [lia|]. rewrite Z.pow_add_r by lia. cbn [Z.pow Z.pow_pos Pos.iter]. lia.
Qed.

Lemma Zdigits2_mul (a b : Z) : 0 < a -> 0 < b ->
  Zdigits2 a + Zdigits2 b - 1 <= Zdigits2 (a * b) <= Zdigits2 a + Zdigits2 b.
Proof.
  intros Ha Hb.
  destruct (Zdigits2_bounds a Ha) as [La Ua]. destruct (Zdigits2_bounds b Hb) as [Lb Ub].
  pose proof (Zdigits2_pos a Ha). pose proof (Zdigits2_pos b Hb).
  split.
  - apply Zdigits2_ge; [|nia].
    replace (Zdigits2 a + Zdigits2 b - 1 - 1) with ((Zdigits2 a - 1) + (Zdigits2 b - 1)) by lia.
    rewrite Z.pow_add_r by lia.
    assert (0 < 2 ^ (Zdigits2 a - 1)) by (apply Z.pow_pos_nonneg; lia).
    assert (0 < 2 ^ (Zdigits2 b - 1)) by (apply Z.pow_pos_nonneg; lia). nia.
  - apply Zdigits2_le; [lia|]. rewrite Z.pow_add_r by lia. nia.
Qed.

End Digits.

Section Shifts.
Import Double.
Local Open Scope Z_scope.

(** ** Right shifts and the rounding of a mantissa *)

Lemma iterN_comm {A} (f : A -> A) (n : nat) (x : A) : iterN f n (f x) = f (iterN f n x).
Proof. induction n as [|n IH]; cbn; [reflexivity | rewrite IH; reflexivity]. Qed.

Lemma iterN_add {A} (f : A -> A) (a b : nat) (x : A) :
  iterN f (a + b) x = iterN f a (iterN f b x).
Proof. induction a as [|a IH]; cbn; [reflexivity | rewrite IH; reflexivity]. Qed.

Lemma iter_pos_iterN {A} (f : A -> A) (p : positive) :
  forall x, iter_pos f p x = iterN f (Pos.to_nat p) x.
Proof.
  induction p as [p IH | p IH | ]; intros x; cbn [iter_pos].
  - rewrite !IH. rewrite Pos2Nat.inj_xI.
    replace (S (2 * Pos.to_nat p)) with (Pos.to_nat p + (Pos.to_nat p + 1))%nat by lia.
    rewrite !iterN_add. cbn [iterN]. reflexivity.
  - rewrite !IH. rewrite Pos2Nat.inj_xO.
    replace (2 * Pos.to_nat p)%nat with (Pos.to_nat p + Pos.to_nat p)%nat by lia.
    rewrite iterN_add. reflexivity.
  - reflexivity.
Qed.

Lemma shr_1_spec (mrs : shr_record) :
  0 <= shr_m mrs ->
  shr_m (shr_1 mrs) = shr_m mrs / 2 /\
  orb (shr_r (shr_1 mrs)) (shr_s (shr_1 mrs))
  = orb (Z.odd (shr_m mrs)) (orb (shr_r mrs) (shr_s mrs)).
Proof.
  destruct mrs as [m r s]. cbn [shr_m shr_r shr_s]. intros Hm.
  destruct m as [|p|p]; [ | | lia].
  - cbn. split; reflexivity.
  - destruct p as [p|p|]; cbn [shr_1 shr_m shr_r shr_s].
    + split; [ | reflexivity].
      rewrite <- Z.div2_div. reflexivity.
    + split; [ | reflexivity].
      rewrite <- Z.div2_div. reflexivity.
    + split; reflexivity.
Qed.

Lemma shr_iterN (n : nat) (mrs : shr_record) :
  0 <= shr_m mrs ->
  shr_m (iterN shr_1 n mrs) = shr_m mrs / 2 ^ Z.of_nat n /\
  (orb (shr_r mrs) (shr_s mrs) = false ->
   (orb (shr_r (iterN shr_1 n mrs)) (shr_s (iterN shr_1 n mrs)) = false
    <-> shr_m mrs mod 2 ^ Z.of_nat n = 0)).
Proof.
  intros Hm. induction n as [|n [IHm IHf]].
  - cbn [iterN Z.of_nat]. rewrite Z.pow_0_r, Z.div_1_r, Z.mod_1_r.
    split; [reflexivity | intros H0; rewrite H0; split; reflexivity].
  - cbn [iterN].
    assert (Hq : 0 <= shr_m (iterN shr_1 n mrs)).
    { rewrite IHm. apply Z.div_pos; [lia | apply Z.pow_pos_nonneg; lia]. }
    destruct (shr_1_spec (iterN shr_1 n mrs) Hq) as [E1 E2].
    assert (Hp : 0 < 2 ^ Z.of_nat n) by (apply Z.pow_pos_nonneg; lia).
    assert (Epow : 2 ^ Z.of_nat (S n) = 2 ^ Z.of_nat n * 2).
    { rewrite Nat2Z.inj_succ, Z.pow_succ_r by lia. lia. }
    split.
    + rewrite E1, IHm, Epow, Z.div_div by lia. reflexivity.
    + intros H0. specialize (IHf H0). rewrite E2, IHm.
      rewrite Epow.
      pose proof (Z.div_mod (shr_m mrs) (2 ^ Z.of_nat n) ltac:(lia)) as Hdm.
      pose proof (Z.mod_pos_bound (shr_m mrs) (2 ^ Z.of_nat n) Hp) as Hb.
      set (q := shr_m mrs / 2 ^ Z.of_nat n) in *.
      set (r := shr_m mrs mod 2 ^ Z.of_nat n) in *.

      split.
      * intros Hor. apply orb_false_iff in Hor. destruct Hor as [Hodd Hi].
        apply IHf in Hi.
        assert (Heven : Z.even q = true) by (rewrite <- Z.negb_odd, Hodd; reflexivity).
        apply Z.even_spec in Heven. destruct Heven as [c Hc].
        rewrite Hdm, Hi, Hc.
        replace (2 ^ Z.of_nat n * (2 * c) + 0) with (c * (2 ^ Z.of_nat n * 2)) by lia.
        apply Z.mod_mul. lia.
      * intros Hmod.
        apply Z.mod_divide in Hmod; [ | lia]. destruct Hmod as [c Hc].
        assert (Hr0 : r = 0).
        { assert (Hdiv : (2 ^ Z.of_nat n | shr_m mrs)).
          { exists (c * 2). lia. }
          apply Z.mod_divide in Hdiv; [exact Hdiv | lia]. }
        assert (Hq2 : q = c * 2) by nia.
        apply orb_false_iff. split.
        -- rewrite Hq2, Z.odd_mul. cbn. apply andb_false_r.
        -- apply IHf. exact Hr0.
Qed.

Lemma round_nearest_even_cases (q : Z) (l : location) :
  round_nearest_even q l = q \/ round_nearest_even q l = q + 1.
Proof.
  destruct l as [|[| |]]; cbn [round_nearest_even]; auto.
  destruct (Z.even q); auto.
Qed.

Lemma loc_of_shr_record_exact (mrs : shr_record) :
  orb (shr_r mrs) (shr_s mrs) = false -> loc_of_shr_record mrs = loc_Exact.
Proof. destruct mrs as [m [|] [|]]; cbn; intros; try discriminate; reflexivity. Qed.

Lemma shr_record_of_loc_m (m : Z) (l : location) : shr_m (shr_record_of_loc m l) = m.
Proof. destruct l as [|[| |]]; reflexivity. Qed.

Lemma shr_record_of_loc_exact (m : Z) :
  orb (shr_r (shr_record_of_loc m loc_Exact)) (shr_s (shr_record_of_loc m loc_Exact)) = false.
Proof. reflexivity. Qed.

(** [shr] by [n >= 0] positions. *)
Lemma shr_spec (mrs : shr_record) (e n : Z) :
  0 <= shr_m mrs -> 0 <= n ->
  shr_m (fst (shr mrs e n)) = shr_m mrs / 2 ^ n /\
  snd (shr mrs e n) = e + n /\
  (orb (shr_r mrs) (shr_s mrs) = false -> shr_m mrs mod 2 ^ n = 0 ->
   loc_of_shr_record (fst (shr mrs e n)) = loc_Exact).
Proof.
  intros Hm Hn. unfold shr. destruct n as [|p|p]; [ | | lia].
  - cbn [fst snd]. rewrite Z.pow_0_r, Z.div_1_r, Z.add_0_r.
    split; [reflexivity | split; [reflexivity | ]].
    intros H0 _. apply loc_of_shr_record_exact, H0.
  - cbn [fst snd]. rewrite iter_pos_iterN.
    destruct (shr_iterN (Pos.to_nat p) mrs Hm) as [E1 E2].
    rewrite positive_nat_Z in E1, E2.
    split; [exact E1 | split; [reflexivity | ]].
    intros H0 Hmod. apply loc_of_shr_record_exact. apply (E2 H0). exact Hmod.
Qed.

Lemma fexp_eq (k : Z) : fexp prec emax k = Z.max (k - 53) (-1074).
Proof. reflexivity. Qed.

(** What the second normalisation of [binary_round_aux] does. *)
Lemma second_shr (s : bool) (m1 e' : Z) :
  0 <= m1 ->
  let n2 := fexp prec emax (Zdigits2 m1 + e') - e' in
  (n2 = 0 \/ (n2 = 1 /\ Z.even m1 = true)) ->
  e' + n2 <= 971 ->
  (let '(mrs'', e'') := shr_fexp prec emax m1 e' loc_Exact in
   match shr_m mrs'' with
   | Z0 => S754_zero s
   | Zpos m => if Z.leb e'' (emax - prec) then S754_finite s m e'' else S754_infinity s
   | _ => S754_nan
   end) = mk_float s (m1 / 2 ^ n2) (e' + n2).
Proof.
  intros Hm n2 Hn2 He.
  unfold shr_fexp. fold n2.
  assert (Hn0 : 0 <= n2) by (destruct Hn2 as [->|[-> _]]; lia).
  pose proof (shr_spec (shr_record_of_loc m1 loc_Exact) e' n2) as Hs.
  rewrite shr_record_of_loc_m in Hs. specialize (Hs Hm Hn0).
  destruct Hs as (Em & Ee & _).
  destruct (shr (shr_record_of_loc m1 loc_Exact) e' n2) as [mrs'' e''].
  cbn [fst snd] in Em, Ee. rewrite Em, Ee.
  assert (Hq : 0 <= m1 / 2 ^ n2) by (apply Z.div_pos; [lia | apply Z.pow_pos_nonneg; lia]).
  destruct (m1 / 2 ^ n2) as [|p|p]; [reflexivity | | lia].
  cbn [mk_float]. change (emax - prec) with 971.
  apply Z.leb_le in He. rewrite He. reflexivity.
Qed.

Lemma pow2_even (d : Z) : 0 < d -> Z.even (2 ^ d) = true.
Proof.
  intros Hd. replace d with (Z.succ (d - 1)) by lia.
  rewrite Z.pow_succ_r by lia. rewrite Z.even_mul. reflexivity.
Qed.

Lemma round_aux_Z (s : bool) (M E : Z) (l : location) :
  0 <= M ->
  E <= fexp prec emax (Zdigits2 M + E) ->
  Zdigits2 M + E <= 1023 ->
  let n := fexp prec emax (Zdigits2 M + E) - E in
  let q := M / 2 ^ n in
  exists m1 n2,
    (m1 = q \/ m1 = q + 1) /\
    (l = loc_Exact -> M mod 2 ^ n = 0 -> m1 = q) /\
    (n2 = 0 \/ n2 = 1) /\
    (m1 / 2 ^ n2) * 2 ^ n2 = m1 /\
    E + n + n2 <= 971 /\
    (0 < m1 -> fexp prec emax (Zdigits2 (m1 / 2 ^ n2) + (E + n + n2)) = E + n + n2) /\
    binary_round_aux prec emax s M E l = mk_float s (m1 / 2 ^ n2) (E + n + n2).
Proof.
  intros HM Hn Hk n q.
  assert (Hn0 : 0 <= n) by (unfold n; lia).
  assert (Hpn : 0 < 2 ^ n) by (apply Z.pow_pos_nonneg; lia).
  assert (Hq0 : 0 <= q) by (apply Z.div_pos; lia).
  unfold binary_round_aux.
  pose proof (shr_spec (shr_record_of_loc M l) E n) as Hs.
  rewrite shr_record_of_loc_m in Hs. specialize (Hs HM Hn0).
  destruct Hs as (Em & Ee & Hex).
  unfold shr_fexp at 1. fold n.
  destruct (shr (shr_record_of_loc M l) E n) as [mrs' e'].
  cbn [fst snd] in Em, Ee, Hex. subst e'.
  set (m1 := round_nearest_even (shr_m mrs') (loc_of_shr_record mrs')).
  assert (Hm1 : m1 = q \/ m1 = q + 1).
  { unfold m1. rewrite Em. apply round_nearest_even_cases. }
  assert (Hm1ex : l = loc_Exact -> M mod 2 ^ n = 0 -> m1 = q).
  { intros -> Hmod. unfold m1. rewrite (Hex eq_refl Hmod), Em. reflexivity. }
  assert (Hm1nn : 0 <= m1) by (destruct Hm1; lia).
  set (k := Zdigits2 M + E) in *.
  assert (He' : E + n = fexp prec emax k) by (unfold n; lia).
  rewrite fexp_eq in He'.
  set (n2 := fexp prec emax (Zdigits2 m1 + (E + n)) - (E + n)).
  (* the shape of the second shift *)
  assert (Hn2 : (n2 = 0 \/ (n2 = 1 /\ Z.even m1 = true)) /\
                (0 < m1 -> Zdigits2 (m1 / 2 ^ n2) + n2 = Zdigits2 m1)).
  { unfold n2. rewrite fexp_eq.
    destruct (Z.eq_dec q 0) as [Hqz | Hqnz].
    - (* everything was shifted out *)
      assert (Hk' : E + n = -1074).
      { destruct (Z.eq_dec M 0) as [HM0 | HMn].
        - subst M. unfold k in *. cbn [Zdigits2] in *. rewrite fexp_eq in Hn. lia.
        - assert (Hd : Zdigits2 M <= n).
          { destruct (Z_lt_le_dec n (Zdigits2 M)) as [Hlt|]; [|lia].
            pose proof (Zdigits2_div_pow M n ltac:(lia) Hn0 Hlt) as Hdq.
            fold q in Hdq. rewrite Hqz in Hdq. cbn [Zdigits2] in Hdq. lia. }
          unfold k in *. lia. }
      destruct Hm1 as [-> | ->]; rewrite Hqz; cbn [Zdigits2 digits2_pos Z.add];
        rewrite Hk'; cbn; split; try (left; reflexivity); intros; try lia; reflexivity.
    - assert (HMpos : 0 < M).
      { destruct (Z.eq_dec M 0) as [->|]; [|lia]. unfold q in Hqnz.
        rewrite Z.div_0_l in Hqnz; lia. }
      assert (Hlt : n < Zdigits2 M).
      { destruct (Z_lt_le_dec n (Zdigits2 M)) as [|Hge]; [assumption|].
        exfalso. apply Hqnz. apply Zdigits2_div_pow_zero; lia. }
      pose proof (Zdigits2_div_pow M n HMpos Hn0 Hlt) as Hdq. fold q in Hdq.
      assert (Hqpos : 0 < q) by lia.
      destruct (Zdigits2_bounds q Hqpos) as [Hql Hqh].
      destruct Hm1 as [Hm | Hm]; rewrite Hm.
      + assert (E0 : Z.max (Zdigits2 q + (E + n) - 53) (-1074) - (E + n) = 0)
          by (unfold k in *; lia).
        rewrite E0. rewrite Z.pow_0_r, Z.div_1_r.
        split; [left; reflexivity | intros; lia].
      + pose proof (Zdigits2_succ q ltac:(lia)) as Hsucc.
        pose proof (Zdigits2_ge (q + 1) (Zdigits2 q) ltac:(lia) ltac:(lia)) as Hge.
        destruct (Z.eq_dec (Zdigits2 (q + 1)) (Zdigits2 q)) as [Hsame | Hdiff].
        * rewrite Hsame.
          assert (E0 : Z.max (Zdigits2 q + (E + n) - 53) (-1074) - (E + n) = 0)
            by (unfold k in *; lia).
          rewrite E0. rewrite Z.pow_0_r, Z.div_1_r.
          split; [left; reflexivity | intros; lia].
        * assert (Hd1 : Zdigits2 (q + 1) = Zdigits2 q + 1) by lia.
          destruct (Zdigits2_bounds (q + 1) ltac:(lia)) as [Hl1 _].
          rewrite Hd1 in Hl1. replace (Zdigits2 q + 1 - 1) with (Zdigits2 q) in Hl1 by lia.
          assert (Hpow : q + 1 = 2 ^ Zdigits2 q) by lia.
          pose proof (Zdigits2_pos q Hqpos) as Hdpos.
          rewrite Hd1.
          destruct (Z.eq_dec (Z.max (Zdigits2 q + 1 + (E + n) - 53) (-1074) - (E + n)) 0)
            as [E0 | E1].
          -- rewrite E0. rewrite Z.pow_0_r, Z.div_1_r.
             split; [left; reflexivity | intros; lia].
          -- assert (E1' : Z.max (Zdigits2 q + 1 + (E + n) - 53) (-1074) - (E + n) = 1)
               by (unfold k in *; lia).
             rewrite E1'. split.
             ++ right. split; [reflexivity | rewrite Hpow; apply pow2_even; lia].
             ++ intros _. rewrite Hpow.
                replace (2 ^ Zdigits2 q) with (2 ^ (Zdigits2 q - 1) * 2 ^ 1)
                  by (rewrite <- Z.pow_add_r by lia; f_equal; lia).
                rewrite Z.div_mul by lia.
                assert (Hu : Zdigits2 (2 ^ (Zdigits2 q - 1)) = Zdigits2 q).
                { apply Zdigits2_unique.
                  - split; [lia|]. apply Z.pow_lt_mono_r; lia.
                  - apply Z.pow_pos_nonneg; lia. }
                lia. }
  destruct Hn2 as [Hn2 Hdig].
  assert (Hn2' : n2 = 0 \/ n2 = 1) by (destruct Hn2 as [|[? _]]; auto).
  assert (Hmul : m1 / 2 ^ n2 * 2 ^ n2 = m1).
  { destruct Hn2 as [-> | [-> Hev]].
    - rewrite Z.pow_0_r, Z.div_1_r. lia.
    - apply Z.even_spec in Hev. destruct Hev as [c ->].
      change (2 ^ 1) with 2. rewrite (Z.mul_comm 2 c), Z.div_mul by lia. reflexivity. }
  assert (Hd1le : Zdigits2 m1 <= Zdigits2 M - n + 1 \/ m1 <= 1).
  { destruct (Z.eq_dec q 0) as [Hqz|Hqnz]; [right; destruct Hm1; lia|].
    left.
    assert (HMpos : 0 < M).
    { destruct (Z.eq_dec M 0) as [->|]; [|lia]. unfold q in Hqnz.
      rewrite Z.div_0_l in Hqnz; lia. }
    assert (Hlt : n < Zdigits2 M).
    { destruct (Z_lt_le_dec n (Zdigits2 M)) as [|Hge]; [assumption|].
      exfalso. apply Hqnz. apply Zdigits2_div_pow_zero; lia. }
    pose proof (Zdigits2_div_pow M n HMpos Hn0 Hlt) as Hdq. fold q in Hdq.
    destruct Hm1 as [-> | ->]; [lia|].
    pose proof (Zdigits2_succ q ltac:(lia)). lia. }
  assert (He2 : E + n + n2 <= 971).
  { unfold n2. rewrite fexp_eq.
    destruct Hd1le as [Hd|Hs].
    - unfold k in *. lia.
    - assert (Zdigits2 m1 <= 1).
      { destruct (Z.eq_dec m1 0) as [->|]; [cbn; lia|].
        replace m1 with 1 by lia. cbn. lia. }
      unfold k in *. lia. }
  exists m1, n2.
  split; [exact Hm1|]. split; [exact Hm1ex|]. split; [exact Hn2'|].
  split; [exact Hmul|]. split; [exact He2|]. split.
  - intros Hpos. specialize (Hdig Hpos). unfold n2 in *.
    replace (Zdigits2 (m1 / 2 ^ (fexp prec emax (Zdigits2 m1 + (E + n)) - (E + n)))
             + (E + n + (fexp prec emax (Zdigits2 m1 + (E + n)) - (E + n))))
      with (Zdigits2 m1 + (E + n)) by lia.
    lia.
  - apply (second_shr s m1 (E + n) Hm1nn).
    + exact Hn2.
    + exact He2.
Qed.

End Shifts.

Section Rounding.
Import Double.
Local Open Scope R_scope.

(** ** The value of a rounded result *)

Lemma bpow_pos (e : Z) : 0 < bpow e.
Proof. apply powerRZ_lt. lra. Qed.

Lemma bpow_add (a b : Z) : bpow (a + b) = bpow a * bpow b.
Proof. apply powerRZ_add. lra. Qed.

Lemma bpow_0 : bpow 0 = 1.
Proof. reflexivity. Qed.

Lemma bpow_1 : bpow 1 = 2.
Proof. unfold bpow. change 1%Z with (Z.succ 0). apply powerRZ_1. Qed.

Lemma bpow_IZR (e : Z) : (0 <= e)%Z -> bpow e = IZR (2 ^ e).
Proof.
  intros He. unfold bpow. rewrite <- (Z2Nat.id e He) at 1.
  rewrite <- pow_powerRZ, pow_IZR, Z2Nat.id by exact He. reflexivity.
Qed.

Lemma bpow_lt (a b : Z) : (a < b)%Z -> bpow a < bpow b.
Proof.
  intros Hab. replace b with (a + (b - a))%Z by lia. rewrite bpow_add.
  rewrite <- (Rmult_1_r (bpow a)) at 1.
  apply Rmult_lt_compat_l; [apply bpow_pos|].
  rewrite bpow_IZR by lia. apply IZR_lt.
  assert (2 ^ 0 < 2 ^ (b - a))%Z by (apply Z.pow_lt_mono_r; lia). lia.
Qed.

Lemma bpow_le (a b : Z) : (a <= b)%Z -> bpow a <= bpow b.
Proof.
  intros Hab. destruct (Z.eq_dec a b) as [->|]; [lra|].
  apply Rlt_le, bpow_lt. lia.
Qed.

Lemma bpow_lt_inv (a b : Z) : bpow a < bpow b -> (a < b)%Z.
Proof.
  intros Hlt. destruct (Z_lt_le_dec a b) as [|Hge]; [assumption|].
  pose proof (bpow_le b a Hge). lra.
Qed.

Lemma F2R_shift (s : bool) (m e n : Z) :
  (0 <= n)%Z -> F2R s (m * 2 ^ n) e = F2R s m (e + n).
Proof.
  intros Hn. unfold F2R. rewrite bpow_add, (bpow_IZR n Hn), mult_IZR.
  destruct s; ring.
Qed.

Lemma F2R_false (m e : Z) : F2R false m e = IZR m * bpow e.
Proof. reflexivity. Qed.

Lemma F2R_true (m e : Z) : F2R true m e = - (IZR m * bpow e).
Proof. unfold F2R. ring. Qed.

Lemma F2R_neg (s : bool) (m e : Z) : F2R (negb s) m e = - F2R s m e.
Proof. unfold F2R. destruct s; cbn [negb]; ring. Qed.

Lemma digits_bpow (m e : Z) :
  (0 < m)%Z ->
  bpow (Zdigits2 m + e - 1) <= IZR m * bpow e < bpow (Zdigits2 m + e).
Proof.
  intros Hm. destruct (Zdigits2_bounds m Hm) as [Hlo Hhi].
  pose proof (Zdigits2_pos m Hm) as Hd.
  replace (Zdigits2 m + e - 1)%Z with ((Zdigits2 m - 1) + e)%Z by lia.
  rewrite !bpow_add.
  rewrite (bpow_IZR (Zdigits2 m - 1)), (bpow_IZR (Zdigits2 m)) by lia.
  pose proof (bpow_pos e). apply IZR_le in Hlo. apply IZR_lt in Hhi.
  split; [apply Rmult_le_compat_r; lra | apply Rmult_lt_compat_r; lra].
Qed.

Lemma B2R_mk_float (s : bool) (m e : Z) : (0 <= m)%Z -> B2R (mk_float s m e) = F2R s m e.
Proof.
  intros Hm. destruct m as [|p|p]; [ | reflexivity | lia].
  cbn. unfold F2R. destruct s; ring.
Qed.

Lemma is_finite_mk_float (s : bool) (m e : Z) : is_finite (mk_float s m e) = true.
Proof. destruct m; reflexivity. Qed.

Lemma valid_mk_float (s : bool) (m e : Z) :
  ((0 < m)%Z -> fexp prec emax (Zdigits2 m + e) = e) -> (e <= 971)%Z ->
  valid (mk_float s m e) = true.
Proof.
  intros Hc He. destruct m as [|p|p]; try reflexivity.
  cbn [mk_float]. unfold valid, valid_binary, bounded, canonical_mantissa.
  specialize (Hc ltac:(lia)). cbn [Zdigits2] in Hc. rewrite Hc, Z.eqb_refl.
  cbn [andb]. change (emax - prec)%Z with 971%Z. apply Z.leb_le. exact He.
Qed.

Lemma representable_finite_inv (s : bool) (m : positive) (e : Z) :
  representable (S754_finite s m e) ->
  fexp prec emax (Zdigits2 (Zpos m) + e) = e /\ (e <= 971)%Z.
Proof.
  intros [_ Hv]. unfold valid, valid_binary, bounded, canonical_mantissa in Hv.
  apply andb_true_iff in Hv. destruct Hv as [Hc Hb].
  apply Z.eqb_eq in Hc. apply Z.leb_le in Hb. split; [exact Hc | exact Hb].
Qed.

(** The result of [binary_round_aux] and the real number it denotes. *)
Lemma round_aux_R (s : bool) (M E : Z) (l : location) :
  (0 <= M)%Z ->
  (E <= fexp prec emax (Zdigits2 M + E))%Z ->
  (Zdigits2 M + E <= 1023)%Z ->
  let n := (fexp prec emax (Zdigits2 M + E) - E)%Z in
  let q := (M / 2 ^ n)%Z in
  let r := binary_round_aux prec emax s M E l in
  representable r /\
  exists m1, (m1 = q \/ m1 = (q + 1)%Z) /\
             (l = loc_Exact -> (M mod 2 ^ n = 0)%Z -> m1 = q) /\
             B2R r = F2R s m1 (E + n).
Proof.
  intros HM Hn Hk n q r.
  destruct (round_aux_Z s M E l HM Hn Hk) as (m1 & n2 & Hm1 & Hex & Hn2 & Hmul & He & Hcan & Hr).
  fold n in Hm1, Hex, Hmul, He, Hcan, Hr. fold q in Hm1, Hex.
  assert (Hq0 : (0 <= q)%Z).
  { apply Z.div_pos; [lia | apply Z.pow_pos_nonneg; unfold n; lia]. }
  assert (Hm1nn : (0 <= m1)%Z) by (destruct Hm1; lia).
  assert (Hn2nn : (0 <= n2)%Z) by (destruct Hn2; lia).
  assert (Hm2nn : (0 <= m1 / 2 ^ n2)%Z).
  { apply Z.div_pos; [lia | apply Z.pow_pos_nonneg; lia]. }
  unfold r. rewrite Hr. split.
  - split; [apply is_finite_mk_float|].
    apply valid_mk_float; [|exact He].
    intros Hpos. apply Hcan.
    destruct (Z.eq_dec m1 0) as [Hz|]; [|lia].
    rewrite Hz, Z.div_0_l in Hpos; [lia|].
    apply Z.pow_nonzero; lia.
  - exists m1. split; [exact Hm1|]. split; [exact Hex|].
    rewrite B2R_mk_float by exact Hm2nn.
    rewrite <- (F2R_shift s (m1 / 2 ^ n2) (E + n) n2 Hn2nn), Hmul.
    reflexivity.
Qed.

Lemma representable_pos_inv (v : double) :
  representable v -> 0 < B2R v ->
  exists m e, v = S754_finite false m e /\
              fexp prec emax (Zdigits2 (Zpos m) + e) = e /\ (e <= 971)%Z.
Proof.
  intros Hr Hpos. destruct v as [s|s| |s m e]; cbn [B2R] in Hpos; try lra.
  destruct (representable_finite_inv s m e Hr) as [Hc He].
  destruct s.
  - rewrite F2R_true in Hpos.
    pose proof (bpow_pos e). assert (0 < IZR (Zpos m)) by (apply IZR_lt; lia). nra.
  - exists m, e. auto.
Qed.

Lemma representable_opp (v : double) : representable v -> representable (SFopp v).
Proof. intros [Hf Hv]. destruct v; split; try discriminate; auto. Qed.

Lemma B2R_opp (v : double) : B2R (SFopp v) = - B2R v.
Proof. destruct v as [s|s| |s m e]; cbn [SFopp B2R]; try ring. apply F2R_neg. Qed.

Lemma SFopp_involutive (v : double) : SFopp (SFopp v) = v.
Proof. destruct v as [s|s| |s m e]; cbn; rewrite ?negb_involutive; reflexivity. Qed.

Lemma faithful_opp (r : double) (x : R) : faithful r x -> faithful (SFopp r) (- x).
Proof.
  intros [Hr Hb]. split; [apply representable_opp, Hr|].
  intros v Hv. rewrite B2R_opp.
  destruct (Hb (SFopp v) (representable_opp v Hv)) as [H1 H2].
  rewrite B2R_opp in H1, H2. split; intros Hle.
  - assert (x <= - B2R v) by lra. specialize (H2 H). lra.
  - assert (- B2R v <= x) by lra. specialize (H1 H). lra.
Qed.

Lemma faithful_exact (r : double) (x : R) : representable r -> B2R r = x -> faithful r x.
Proof. intros Hr <-. split; [exact Hr|]. intros v _. split; intros; assumption. Qed.

(** No double lies strictly between two neighbours of the rounding grid. *)
Lemma grid_gap (q e' k : Z) (v : double) :
  representable v ->
  e' = fexp prec emax k ->
  ((q = 0 /\ e' = -1074) \/ (0 < q /\ Zdigits2 q + e' = k))%Z ->
  IZR q * bpow e' < B2R v -> B2R v < IZR (q + 1) * bpow e' -> False.
Proof.
  intros Hv He' Hq Hlo Hhi.
  pose proof (bpow_pos e') as Hbp.
  assert (Hq0 : (0 <= q)%Z) by (destruct Hq as [[-> _]|[? _]]; lia).
  assert (Hvpos : 0 < B2R v).
  { apply IZR_le in Hq0. nra. }
  destruct (representable_pos_inv v Hv Hvpos) as (m & e & -> & Hc & He).
  cbn [B2R] in Hlo, Hhi. rewrite F2R_false in Hlo, Hhi.
  rewrite fexp_eq in Hc.
  destruct (digits_bpow (Zpos m) e ltac:(lia)) as [Hdl Hdh].
  set (kv := (Zdigits2 (Zpos m) + e)%Z) in *.
  destruct Hq as [[Hqz He1] | [Hqpos Hdq]].
  - subst q. rewrite He1 in Hhi. cbn [Z.add] in Hhi. rewrite Rmult_1_l in Hhi.
    assert (Hge : (-1074 <= e)%Z) by lia.
    pose proof (bpow_le (-1074) e Hge).
    pose proof (bpow_pos e).
    assert (1 <= IZR (Zpos m)) by (apply IZR_le; lia). nra.
  - destruct (digits_bpow q e' Hqpos) as [Hql Hqh]. rewrite Hdq in Hql, Hqh.
    assert (Hu : IZR (q + 1) * bpow e' <= bpow k).
    { destruct (Zdigits2_bounds q Hqpos) as [_ Hqb].
      pose proof (Zdigits2_pos q Hqpos).
      replace k with (Zdigits2 q + e')%Z by lia.
      rewrite bpow_add, (bpow_IZR (Zdigits2 q)) by lia.
      apply Rmult_le_compat_r; [lra|]. apply IZR_le. lia. }
    assert (Hk1 : (k - 1 < kv)%Z) by (apply bpow_lt_inv; lra).
    assert (Hk2 : (kv - 1 < k)%Z) by (apply bpow_lt_inv; lra).
    assert (Hkk : kv = k) by lia.
    assert (Hee : e = e') by (rewrite He', fexp_eq; lia).
    unfold kv in *. clear kv. subst e.
    assert (Hlt1 : IZR q < IZR (Zpos m)) by nra.
    assert (Hlt2 : IZR (Zpos m) < IZR (q + 1)) by nra.
    apply lt_IZR in Hlt1. apply lt_IZR in Hlt2. lia.
Qed.

Lemma grid_shape (M E : Z) :
  (0 <= M)%Z ->
  (E <= fexp prec emax (Zdigits2 M + E))%Z ->
  let n := (fexp prec emax (Zdigits2 M + E) - E)%Z in
  let q := (M / 2 ^ n)%Z in
  ((q = 0 /\ E + n = -1074) \/ (0 < q /\ Zdigits2 q + (E + n) = Zdigits2 M + E))%Z.
Proof.
  intros HM Hn n q.
  assert (Hn0 : (0 <= n)%Z) by (unfold n; lia).
  assert (Hpn : (0 < 2 ^ n)%Z) by (apply Z.pow_pos_nonneg; lia).
  assert (Hq0 : (0 <= q)%Z) by (apply Z.div_pos; lia).
  assert (He' : (E + n = fexp prec emax (Zdigits2 M + E))%Z) by (unfold n; lia).
  rewrite fexp_eq in He'. rewrite fexp_eq in Hn.
  destruct (Z.eq_dec q 0) as [Hqz|Hqnz].
  - left. split; [exact Hqz|].
    destruct (Z.eq_dec M 0) as [HM0|HMn].
    + assert (Hd0 : Zdigits2 M = 0%Z) by (rewrite HM0; reflexivity). lia.
    + assert (Hd : (Zdigits2 M <= n)%Z).
      { destruct (Z_lt_le_dec n (Zdigits2 M)) as [Hlt|]; [|lia].
        pose proof (Zdigits2_div_pow M n ltac:(lia) Hn0 Hlt) as Hdq.
        fold q in Hdq. rewrite Hqz in Hdq. cbn [Zdigits2] in Hdq. lia. }
      lia.
  - right. split; [lia|].
    assert (HMpos : (0 < M)%Z).
    { destruct (Z.eq_dec M 0) as [HM0|]; [|lia]. exfalso. apply Hqnz.
      unfold q. rewrite HM0. apply Z.div_0_l. lia. }
    assert (Hlt : (n < Zdigits2 M)%Z).
    { destruct (Z_lt_le_dec n (Zdigits2 M)) as [|Hge]; [assumption|].
      exfalso. apply Hqnz. apply Zdigits2_div_pow_zero; lia. }
    pose proof (Zdigits2_div_pow M n HMpos Hn0 Hlt) as Hdq. fold q in Hdq. lia.
Qed.

Lemma round_aux_faithful_pos (M E : Z) :
  (0 <= M)%Z ->
  (E <= fexp prec emax (Zdigits2 M + E))%Z ->
  (Zdigits2 M + E <= 1023)%Z ->
  faithful (binary_round_aux prec emax false M E loc_Exact) (IZR M * bpow E).
Proof.
  intros HM Hn Hk.
  destruct (round_aux_R false M E loc_Exact HM Hn Hk) as (Hrep & m1 & Hm1 & Hex & Hval).
  set (n := (fexp prec emax (Zdigits2 M + E) - E)%Z) in *.
  set (q := (M / 2 ^ n)%Z) in *.
  set (r := binary_round_aux prec emax false M E loc_Exact) in *.
  assert (Hn0 : (0 <= n)%Z) by (unfold n; lia).
  assert (Hpn : (0 < 2 ^ n)%Z) by (apply Z.pow_pos_nonneg; lia).
  assert (Hq0 : (0 <= q)%Z) by (apply Z.div_pos; lia).
  pose proof (Z.div_mod M (2 ^ n) ltac:(lia)) as Hdm. fold q in Hdm.
  pose proof (Z.mod_pos_bound M (2 ^ n) Hpn) as Hrem.
  set (rem := (M mod 2 ^ n)%Z) in *.
  specialize (Hex eq_refl).
  rewrite F2R_false in Hval.
  pose proof (bpow_pos E) as HbE.
  assert (Hbe : bpow (E + n) = bpow E * IZR (2 ^ n)).
  { rewrite bpow_add, (bpow_IZR n Hn0). reflexivity. }
  assert (Hx : IZR M * bpow E = IZR q * bpow (E + n) + IZR rem * bpow E).
  { rewrite Hbe, Hdm at 1. rewrite plus_IZR, mult_IZR. ring. }
  assert (Hrem1 : 0 <= IZR rem * bpow E).
  { apply Rmult_le_pos; [apply IZR_le; lia | lra]. }
  assert (Hrem2 : IZR rem * bpow E < bpow (E + n)).
  { rewrite Hbe, (Rmult_comm (bpow E)). apply Rmult_lt_compat_r; [lra|].
    apply IZR_lt. lia. }
  assert (Hq1 : IZR (q + 1) * bpow (E + n) = IZR q * bpow (E + n) + bpow (E + n)).
  { rewrite plus_IZR. ring. }
  pose proof (grid_shape M E HM Hn) as Hshape. cbv zeta in Hshape.
  fold n in Hshape. fold q in Hshape.
  split; [exact Hrep|].
  intros v Hv. rewrite Hval.
  destruct (Z.eq_dec rem 0) as [Hr0|Hrn].
  - rewrite (Hex Hr0). rewrite Hx, Hr0. rewrite Rmult_0_l, Rplus_0_r.
    split; intros; assumption.
  - assert (Hrem3 : 0 < IZR rem * bpow E).
    { apply Rmult_lt_0_compat; [apply IZR_lt; lia | lra]. }
    split; intros Hle.
    + destruct Hm1 as [-> | ->]; [|lra].
      destruct (Rle_lt_dec (B2R v) (IZR q * bpow (E + n))) as [|Hgt]; [assumption|].
      exfalso.
      apply (grid_gap q (E + n)%Z (Zdigits2 M + E)%Z v Hv); try assumption.
      * unfold n. lia.
      * lra.
    + destruct Hm1 as [-> | ->]; [lra|].
      destruct (Rle_lt_dec (IZR (q + 1) * bpow (E + n)) (B2R v)) as [|Hgt]; [assumption|].
      exfalso.
      apply (grid_gap q (E + n)%Z (Zdigits2 M + E)%Z v Hv); try assumption.
      * unfold n. lia.
      * lra.
Qed.

Lemma round_aux_sign (s : bool) (M E : Z) (l : location) :
  binary_round_aux prec emax s M E l
  = if s then SFopp (binary_round_aux prec emax false M E l)
    else binary_round_aux prec emax false M E l.
Proof.
  unfold binary_round_aux.
  destruct (shr_fexp prec emax M E l) as [mrs' e'].
  destruct (shr_fexp prec emax _ e' loc_Exact) as [mrs'' e''].
  destruct s; [|reflexivity].
  destruct (shr_m mrs''); try reflexivity.
  destruct (Z.leb e'' (emax - prec)); reflexivity.
Qed.

Lemma round_aux_faithful (s : bool) (M E : Z) :
  (0 <= M)%Z ->
  (E <= fexp prec emax (Zdigits2 M + E))%Z ->
  (Zdigits2 M + E <= 1023)%Z ->
  faithful (binary_round_aux prec emax s M E loc_Exact) (F2R s M E).
Proof.
  intros HM Hn Hk. rewrite round_aux_sign.
  pose proof (round_aux_faithful_pos M E HM Hn Hk) as Hf.
  destruct s.
  - rewrite F2R_true. apply faithful_opp. exact Hf.
  - rewrite F2R_false. exact Hf.
Qed.

Lemma pos_iter_xO (m d : positive) : Zpos (Pos.iter xO m d) = (Zpos m * 2 ^ Zpos d)%Z.
Proof.
  induction d as [|d IH] using Pos.peano_ind.
  - cbn. lia.
  - rewrite Pos.iter_succ, Pos2Z.inj_succ, Z.pow_succ_r by lia.
    rewrite Pos2Z.inj_xO, IH. lia.
Qed.

Lemma shl_align_spec (mx : positive) (ex ex' : Z) :
  snd (shl_align mx ex ex') = Z.min ex ex' /\
  Zpos (fst (shl_align mx ex ex')) = (Zpos mx * 2 ^ (ex - Z.min ex ex'))%Z.
Proof.
  unfold shl_align. destruct (ex' - ex)%Z as [|d|d] eqn:Hd; cbn [fst snd].
  - replace (Z.min ex ex') with ex by lia. rewrite Z.sub_diag, Z.pow_0_r. lia.
  - replace (Z.min ex ex') with ex by lia. rewrite Z.sub_diag, Z.pow_0_r. lia.
  - replace (Z.min ex ex') with ex' by lia. rewrite pos_iter_xO.
    split; [reflexivity|]. f_equal. f_equal. lia.
Qed.

Lemma Zdigits2_mul_pow (m j : Z) :
  (0 < m)%Z -> (0 <= j)%Z -> Zdigits2 (m * 2 ^ j) = (Zdigits2 m + j)%Z.
Proof.
  intros Hm Hj. destruct (Zdigits2_bounds m Hm) as [Hlo Hhi].
  pose proof (Zdigits2_pos m Hm) as Hd.
  assert (Hp : (0 < 2 ^ j)%Z) by (apply Z.pow_pos_nonneg; lia).
  apply Zdigits2_unique; [|nia].
  replace (Zdigits2 m + j - 1)%Z with ((Zdigits2 m - 1) + j)%Z by lia.
  rewrite !Z.pow_add_r by lia. split; nia.
Qed.

Lemma binary_round_faithful (s : bool) (m : positive) (e : Z) :
  (Zdigits2 (Zpos m) + e <= 1023)%Z ->
  faithful (binary_round prec emax s m e) (F2R s (Zpos m) e).
Proof.
  intros Hk. unfold binary_round.
  destruct (shl_align_spec m e (fexp prec emax (Zpos (digits2_pos m) + e))) as [He Hm].
  destruct (shl_align m e (fexp prec emax (Zpos (digits2_pos m) + e))) as [mz ez].
  cbn [fst snd] in He, Hm.
  change (Zpos (digits2_pos m)) with (Zdigits2 (Zpos m)) in *.
  set (k := (Zdigits2 (Zpos m) + e)%Z) in *.
  assert (Hj : (0 <= e - ez)%Z) by lia.
  assert (Hd : Zdigits2 (Zpos mz) = (Zdigits2 (Zpos m) + (e - ez))%Z).
  { rewrite Hm. rewrite He. apply Zdigits2_mul_pow; lia. }
  assert (Hval : F2R s (Zpos m) e = F2R s (Zpos mz) ez).
  { rewrite Hm, He. rewrite F2R_shift by lia. f_equal. lia. }
  rewrite Hval. apply round_aux_faithful.
  - lia.
  - rewrite Hd. replace (Zdigits2 (Zpos m) + (e - ez) + ez)%Z with k by (unfold k; lia). lia.
  - rewrite Hd. unfold k in *. lia.
Qed.

Lemma IZR_cond_Zopp (s : bool) (z : Z) :
  IZR (cond_Zopp s z) = if s then - IZR z else IZR z.
Proof. destruct s; cbn [cond_Zopp]; [apply opp_IZR | reflexivity]. Qed.

Lemma F2R_cond (s : bool) (m e : Z) : F2R s m e = IZR (cond_Zopp s m) * bpow e.
Proof. unfold F2R. rewrite IZR_cond_Zopp. reflexivity. Qed.

Lemma representable_zero (s : bool) : representable (S754_zero s).
Proof. split; reflexivity. Qed.

Lemma Zdigits2_abs (z : Z) : Zdigits2 z = Zdigits2 (Z.abs z).
Proof. destruct z; reflexivity. Qed.

(** A nonzero value below [2^1023] in magnitude has at most 1023 digits
    above its exponent. *)
Lemma digits_of_small (z e : Z) :
  z <> 0%Z -> Rabs (IZR z * bpow e) < bpow 1023 -> (Zdigits2 z + e <= 1023)%Z.
Proof.
  intros Hz Hlt. rewrite Zdigits2_abs.
  destruct (digits_bpow (Z.abs z) e ltac:(lia)) as [Hlo _].
  assert (Habs : Rabs (IZR z * bpow e) = IZR (Z.abs z) * bpow e).
  { rewrite Rabs_mult, (Rabs_pos_eq (bpow e)) by (apply Rlt_le, bpow_pos).
    rewrite abs_IZR. reflexivity. }
  rewrite Habs in Hlt.
  assert (Hk : (Zdigits2 (Z.abs z) + e - 1 < 1023)%Z) by (apply bpow_lt_inv; lra).
  lia.
Qed.

Lemma normalize_faithful (z e : Z) :
  Rabs (IZR z * bpow e) < bpow 1023 ->
  faithful (binary_normalize prec emax z e false) (IZR z * bpow e).
Proof.
  intros Hlt.
  destruct z as [|p|p] eqn:Ez; cbn [binary_normalize].
  - apply faithful_exact; [apply representable_zero | cbn; ring].
  - rewrite <- F2R_false. apply binary_round_faithful.
    apply (digits_of_small (Zpos p) e); [lia | exact Hlt].
  - replace (IZR (Zneg p) * bpow e) with (F2R true (Zpos p) e).
    + apply binary_round_faithful.
      change (Zdigits2 (Zpos p)) with (Zdigits2 (Zneg p)).
      apply (digits_of_small (Zneg p) e); [lia | exact Hlt].
    + rewrite F2R_true. change (Zneg p) with (- Zpos p)%Z. rewrite opp_IZR. ring.
Qed.

End Rounding.

Section Operations.
Import Double.
Local Open Scope R_scope.

(** ** Multiplication, addition, subtraction and division *)

Lemma representable_not_inf (s : bool) : ~ representable (S754_infinity s).
Proof. intros [Hf _]. discriminate. Qed.

Lemma representable_not_nan : ~ representable S754_nan.
Proof. intros [Hf _]. discriminate. Qed.

Lemma F2R_xorb (sx sy : bool) (mx my ex ey : Z) :
  F2R (xorb sx sy) (mx * my) (ex + ey) = F2R sx mx ex * F2R sy my ey.
Proof. unfold F2R. rewrite bpow_add, mult_IZR. destruct sx, sy; cbn [xorb]; ring. Qed.

Lemma mul_faithful (a b : double) :
  representable a -> representable b ->
  Rabs (B2R a * B2R b) < bpow 1023 ->
  faithful (SFmul prec emax a b) (B2R a * B2R b).
Proof.
  intros Ha Hb Hlt.
  destruct a as [sa|sa| |sa ma ea]; try (exfalso; destruct Ha; discriminate);
  destruct b as [sb|sb| |sb mb eb]; try (exfalso; destruct Hb; discriminate);
  cbn [SFmul B2R] in *.
  - apply faithful_exact; [apply representable_zero | cbn; ring].
  - apply faithful_exact; [apply representable_zero | cbn; ring].
  - apply faithful_exact; [apply representable_zero | cbn; ring].
  - rewrite <- F2R_xorb. rewrite <- F2R_xorb in Hlt.
    destruct (representable_finite_inv sa ma ea Ha) as [Hca Hea].
    destruct (representable_finite_inv sb mb eb Hb) as [Hcb Heb].
    rewrite fexp_eq in Hca, Hcb.
    change (Zpos (ma * mb)) with (Zpos ma * Zpos mb)%Z.
    pose proof (Zdigits2_mul (Zpos ma) (Zpos mb) ltac:(lia) ltac:(lia)) as [Hdl Hdh].
    pose proof (Zdigits2_pos (Zpos ma) ltac:(lia)).
    pose proof (Zdigits2_pos (Zpos mb) ltac:(lia)).
    assert (Hk : (Zdigits2 (Zpos ma * Zpos mb) + (ea + eb) <= 1023)%Z).
    { apply digits_of_small; [lia|].
      unfold F2R in Hlt. destruct (xorb sa sb).
      - rewrite <- Ropp_mult_distr_l, Rabs_Ropp in Hlt. exact Hlt.
      - exact Hlt. }
    apply round_aux_faithful.
    + lia.
    + rewrite fexp_eq. lia.
    + exact Hk.
Qed.

Lemma aligned_value (s : bool) (m : positive) (e ez : Z) :
  (ez <= e)%Z ->
  IZR (cond_Zopp s (Zpos (fst (shl_align m e ez)))) * bpow ez = F2R s (Zpos m) e.
Proof.
  intros Hle. destruct (shl_align_spec m e ez) as [_ Hm]. rewrite Hm.
  replace (Z.min e ez) with ez by lia.
  rewrite <- F2R_cond, F2R_shift by lia. f_equal. lia.
Qed.

Lemma add_faithful (a b : double) :
  representable a -> representable b ->
  Rabs (B2R a + B2R b) < bpow 1023 ->
  faithful (SFadd prec emax a b) (B2R a + B2R b).
Proof.
  intros Ha Hb Hlt.
  destruct a as [sa|sa| |sa ma ea]; try (exfalso; destruct Ha; discriminate);
  destruct b as [sb|sb| |sb mb eb]; try (exfalso; destruct Hb; discriminate);
  cbn [SFadd] in *.
  - destruct sa, sb; (apply faithful_exact; [apply representable_zero | cbn; ring]).
  - apply faithful_exact; [exact Hb | cbn [B2R]; ring].
  - apply faithful_exact; [exact Ha | cbn [B2R]; ring].
  - cbn [B2R] in *.
    set (ez := Z.min ea eb).
    rewrite <- (aligned_value sa ma ea ez), <- (aligned_value sb mb eb ez) by (unfold ez; lia).
    rewrite <- (aligned_value sa ma ea ez), <- (aligned_value sb mb eb ez) in Hlt
      by (unfold ez; lia).
    rewrite <- Rmult_plus_distr_r, <- plus_IZR. rewrite <- Rmult_plus_distr_r, <- plus_IZR in Hlt.
    apply normalize_faithful. exact Hlt.
Qed.

Lemma sub_faithful (a b : double) :
  representable a -> representable b ->
  Rabs (B2R a - B2R b) < bpow 1023 ->
  faithful (SFsub prec emax a b) (B2R a - B2R b).
Proof.
  intros Ha Hb Hlt.
  destruct a as [sa|sa| |sa ma ea]; try (exfalso; destruct Ha; discriminate);
  destruct b as [sb|sb| |sb mb eb]; try (exfalso; destruct Hb; discriminate);
  cbn [SFsub] in *.
  - destruct sa, sb; (apply faithful_exact; [apply representable_zero | cbn; ring]).
  - apply faithful_exact.
    + apply (representable_opp (S754_finite sb mb eb)), Hb.
    + cbn [B2R]. rewrite F2R_neg. ring.
  - apply faithful_exact; [exact Ha | cbn [B2R]; ring].
  - cbn [B2R] in *.
    set (ez := Z.min ea eb).
    rewrite <- (aligned_value sa ma ea ez), <- (aligned_value sb mb eb ez) by (unfold ez; lia).
    rewrite <- (aligned_value sa ma ea ez), <- (aligned_value sb mb eb ez) in Hlt
      by (unfold ez; lia).
    rewrite <- Rmult_minus_distr_r, <- minus_IZR.
    rewrite <- Rmult_minus_distr_r, <- minus_IZR in Hlt.
    apply normalize_faithful. exact Hlt.
Qed.

(** Rounding a value that lies strictly inside a cell of the grid. *)
Lemma round_aux_faithful_inexact (M E : Z) (l : location) (x : R) :
  (0 <= M)%Z ->
  (E <= fexp prec emax (Zdigits2 M + E))%Z ->
  (Zdigits2 M + E <= 1023)%Z ->
  IZR M * bpow E < x < IZR (M + 1) * bpow E ->
  faithful (binary_round_aux prec emax false M E l) x.
Proof.
  intros HM Hn Hk [Hxlo Hxhi].
  destruct (round_aux_R false M E l HM Hn Hk) as (Hrep & m1 & Hm1 & _ & Hval).
  set (n := (fexp prec emax (Zdigits2 M + E) - E)%Z) in *.
  set (q := (M / 2 ^ n)%Z) in *.
  set (r := binary_round_aux prec emax false M E l) in *.
  assert (Hn0 : (0 <= n)%Z) by (unfold n; lia).
  assert (Hpn : (0 < 2 ^ n)%Z) by (apply Z.pow_pos_nonneg; lia).
  pose proof (Z.div_mod M (2 ^ n) ltac:(lia)) as Hdm. fold q in Hdm.
  pose proof (Z.mod_pos_bound M (2 ^ n) Hpn) as Hrem.
  rewrite F2R_false in Hval.
  pose proof (bpow_pos E) as HbE.
  assert (Hbe : bpow (E + n) = IZR (2 ^ n) * bpow E).
  { rewrite bpow_add, (bpow_IZR n Hn0). ring. }
  assert (Hlo : IZR q * bpow (E + n) <= IZR M * bpow E).
  { rewrite Hbe, <- Rmult_assoc, <- mult_IZR.
    apply Rmult_le_compat_r; [lra|]. apply IZR_le. lia. }
  assert (Hhi : IZR (M + 1) * bpow E <= IZR (q + 1) * bpow (E + n)).
  { rewrite Hbe, <- Rmult_assoc, <- mult_IZR.
    apply Rmult_le_compat_r; [lra|]. apply IZR_le. lia. }
  pose proof (grid_shape M E HM Hn) as Hshape. cbv zeta in Hshape.
  fold n in Hshape. fold q in Hshape.
  assert (Hq1 : IZR q * bpow (E + n) < IZR (q + 1) * bpow (E + n)) by lra.
  split; [exact Hrep|].
  intros v Hv. rewrite Hval. split; intros Hle.
  - apply Rle_trans with (IZR q * bpow (E + n)).
    + destruct (Rle_lt_dec (B2R v) (IZR q * bpow (E + n))) as [|Hgt]; [assumption|].
      exfalso.
      apply (grid_gap q (E + n)%Z (Zdigits2 M + E)%Z v Hv); try assumption.
      * unfold n. lia.
      * lra.
    + destruct Hm1 as [-> | ->]; lra.
  - apply Rle_trans with (IZR (q + 1) * bpow (E + n)).
    + destruct Hm1 as [-> | ->]; lra.
    + destruct (Rle_lt_dec (IZR (q + 1) * bpow (E + n)) (B2R v)) as [|Hgt]; [assumption|].
      exfalso.
      apply (grid_gap q (E + n)%Z (Zdigits2 M + E)%Z v Hv); try assumption.
      * unfold n. lia.
      * lra.
Qed.

Lemma new_location_exact (nb k : Z) : new_location nb k = loc_Exact <-> k = 0%Z.
Proof.
  unfold new_location, new_location_even, new_location_odd.
  destruct (Z.even nb); destruct (Z.eqb_spec k 0); split; intros; try reflexivity;
    try assumption; try discriminate; try contradiction.
Qed.

Lemma fexp_monotone (a b : Z) : (a <= b)%Z -> (fexp prec emax a <= fexp prec emax b)%Z.
Proof. intros Hab. rewrite !fexp_eq. lia. Qed.

(** The quotient of the mantissas satisfies what the rounding requires. *)
Lemma div_core_shape (m1 m2 : positive) (e1 e2 : Z) :
  let d1 := Zdigits2 (Zpos m1) in
  let d2 := Zdigits2 (Zpos m2) in
  let e' := Z.min (fexp prec emax (d1 + e1 - (d2 + e2))) (e1 - e2) in
  let s := (e1 - e2 - e')%Z in
  let m' := (Zpos m1 * 2 ^ s)%Z in
  let q := (m' / Zpos m2)%Z in
  let r := (m' mod Zpos m2)%Z in
  SFdiv_core_binary prec emax (Zpos m1) e1 (Zpos m2) e2 = (q, e', new_location (Zpos m2) r) /\
  (0 <= s)%Z /\ (0 <= q)%Z /\ (0 <= r < Zpos m2)%Z /\ (m' = Zpos m2 * q + r)%Z /\
  (e' <= fexp prec emax (Zdigits2 q + e'))%Z /\
  (q = 0%Z -> e' <= -1074)%Z.
Proof.
  intros d1 d2 e' s m' q r.
  assert (Hs : (0 <= s)%Z) by (unfold s, e'; lia).
  assert (Hp : (0 < 2 ^ s)%Z) by (apply Z.pow_pos_nonneg; lia).
  assert (Hm' : (0 < m')%Z) by (unfold m'; lia).
  assert (Hr : (0 <= r < Zpos m2)%Z) by (apply Z.mod_pos_bound; lia).
  assert (Hq : (0 <= q)%Z) by (apply Z.div_pos; lia).
  assert (Hdm : (m' = Zpos m2 * q + r)%Z) by (apply Z.div_mod; lia).
  assert (Hd1 : Zdigits2 m' = (d1 + s)%Z) by (apply Zdigits2_mul_pow; lia).
  destruct (Zdigits2_bounds m' Hm') as [Hlo' _]. rewrite Hd1 in Hlo'.
  destruct (Zdigits2_bounds (Zpos m2) ltac:(lia)) as [_ Hhi2]. fold d2 in Hhi2.
  assert (Hd2 : (0 < d2)%Z) by (apply Zdigits2_pos; lia).
  assert (Hd1p : (0 < d1)%Z) by (apply Zdigits2_pos; lia).
  assert (Hdq : (d1 + s - d2 <= Zdigits2 q)%Z).
  { destruct (Z_le_gt_dec (d1 + s - d2) 0) as [Hk|Hk].
    - pose proof (Zdigits2_nonneg q). lia.
    - assert (Hq2 : (2 ^ (d1 + s - d2 - 1) <= q)%Z).
      { destruct (Z_lt_le_dec q (2 ^ (d1 + s - d2 - 1))) as [Hlt|]; [exfalso|assumption].
        assert (Hpow : (2 ^ (d1 + s - 1) = 2 ^ (d1 + s - d2 - 1) * 2 ^ d2)%Z).
        { rewrite <- Z.pow_add_r by lia. f_equal. lia. }
        assert (Hpk : (0 < 2 ^ (d1 + s - d2 - 1))%Z) by (apply Z.pow_pos_nonneg; lia).
        nia. }
      apply Zdigits2_ge; [exact Hq2|].
      assert (Hpk : (0 < 2 ^ (d1 + s - d2 - 1))%Z) by (apply Z.pow_pos_nonneg; lia).
      lia. }
  split.
  - unfold SFdiv_core_binary. fold d1 d2. fold e'. fold s.
    assert (Em : match s with
                 | Zpos _ => Z.shiftl (Zpos m1) s
                 | Z0 => Zpos m1
                 | Zneg _ => 0%Z
                 end = m').
    { unfold m'. destruct s as [|p|p]; [rewrite Z.pow_0_r; lia | | lia].
      rewrite Z.shiftl_mul_pow2 by lia. reflexivity. }
    rewrite Em. unfold q, r, Z.div, Z.modulo.
    destruct (Z.div_eucl m' (Zpos m2)) as [q0 r0]. reflexivity.
  - split; [exact Hs|]. split; [exact Hq|]. split; [exact Hr|]. split; [exact Hdm|].
    split.
    + apply Z.le_trans with (fexp prec emax (d1 + e1 - (d2 + e2))); [unfold e'; lia|].
      apply fexp_monotone. unfold s in Hdq. lia.
    + intros Hq0. rewrite Hq0 in *.
      assert (Hlt : (m' < Zpos m2)%Z) by lia.
      assert (Hk : (d1 + s <= d2)%Z).
      { destruct (Z_le_gt_dec (d1 + s) d2) as [|Hgt]; [assumption|exfalso].
        assert (2 ^ d2 <= 2 ^ (d1 + s - 1))%Z by (apply Z.pow_le_mono_r; lia). lia. }
      assert (He' : (e' <= fexp prec emax (d1 + e1 - (d2 + e2)))%Z) by (unfold e'; lia).
      rewrite fexp_eq in He'. unfold s in Hk. lia.
Qed.

Lemma representable_nonzero_inv (v : double) :
  representable v -> B2R v <> 0 -> exists s m e, v = S754_finite s m e.
Proof.
  intros Hr Hnz. destruct v as [s|s| |s m e]; cbn [B2R] in Hnz; try (exfalso; lra).
  exists s, m, e. reflexivity.
Qed.

Lemma F2R_quotient (sx sy : bool) (mx my : positive) (ex ey : Z) :
  F2R sx (Zpos mx) ex / F2R sy (Zpos my) ey
  = (if xorb sx sy then -1 else 1) * (IZR (Zpos mx) * bpow ex / (IZR (Zpos my) * bpow ey)).
Proof.
  pose proof (bpow_pos ex). pose proof (bpow_pos ey).
  assert (0 < IZR (Zpos mx)) by (apply IZR_lt; lia).
  assert (0 < IZR (Zpos my)) by (apply IZR_lt; lia).
  destruct sx, sy; cbn [xorb]; rewrite ?F2R_true, ?F2R_false; field; split; lra.
Qed.

Lemma div_faithful (a b : double) :
  representable a -> representable b -> B2R b <> 0 ->
  Rabs (B2R a / B2R b) < bpow 1023 ->
  faithful (SFdiv prec emax a b) (B2R a / B2R b).
Proof.
  intros Ha Hb Hnz Hlt.
  destruct (representable_nonzero_inv b Hb Hnz) as (sy & my & ey & ->).
  destruct a as [sx|sx| |sx mx ex].
  - cbn [SFdiv B2R]. apply faithful_exact; [apply representable_zero|].
    cbn [B2R]. unfold Rdiv. ring.
  - exfalso. exact (representable_not_inf sx Ha).
  - exfalso. exact (representable_not_nan Ha).
  - cbn [B2R] in *. rewrite F2R_quotient in *.
    set (x := IZR (Zpos mx) * bpow ex / (IZR (Zpos my) * bpow ey)) in *.
    destruct (div_core_shape mx my ex ey) as (Ecore & Hs & Hq & Hr & Hdm & Hfe & Hq0).
    cbv zeta in Ecore, Hs, Hq, Hr, Hdm, Hfe, Hq0.
    set (e' := Z.min (fexp prec emax (Zdigits2 (Zpos mx) + ex - (Zdigits2 (Zpos my) + ey)))
                 (ex - ey)) in *.
    set (s := (ex - ey - e')%Z) in *.
    set (m' := (Zpos mx * 2 ^ s)%Z) in *.
    set (q := (m' / Zpos my)%Z) in *.
    set (r := (m' mod Zpos my)%Z) in *.
    cbn [SFdiv]. rewrite Ecore.
    pose proof (bpow_pos ex) as Hpex. pose proof (bpow_pos ey) as Hpey.
    pose proof (bpow_pos e') as Hpe'.
    assert (Hmy : 0 < IZR (Zpos my)) by (apply IZR_lt; lia).
    assert (Hmx : 0 < IZR (Zpos mx)) by (apply IZR_lt; lia).
    assert (Hxval : x = (IZR q + IZR r / IZR (Zpos my)) * bpow e').
    { assert (Em' : IZR m' = IZR (Zpos my) * IZR q + IZR r).
      { rewrite Hdm, plus_IZR, mult_IZR. reflexivity. }
      assert (Eex : bpow ex = bpow ey * IZR (2 ^ s) * bpow e').
      { rewrite <- (bpow_IZR s Hs), <- !bpow_add. f_equal. unfold s. lia. }
      replace (IZR q + IZR r / IZR (Zpos my)) with (IZR m' / IZR (Zpos my))
        by (rewrite Em'; field; lra).
      unfold m'. rewrite mult_IZR. unfold x. rewrite Eex. field. split; lra. }
    assert (Hr0 : 0 <= IZR r / IZR (Zpos my) < 1).
    { split.
      - apply Rmult_le_pos; [apply IZR_le; lia | left; apply Rinv_0_lt_compat; lra].
      - apply Rmult_lt_reg_r with (IZR (Zpos my)); [lra|].
        unfold Rdiv. rewrite Rmult_assoc, Rinv_l, Rmult_1_r, Rmult_1_l by lra.
        apply IZR_lt. lia. }
    assert (Hxpos : 0 < x).
    { unfold x. apply Rmult_lt_0_compat; [nra|]. apply Rinv_0_lt_compat. nra. }
    assert (Hxabs : x < bpow 1023).
    { destruct (xorb sx sy).
      - replace (-1 * x) with (- x) in Hlt by ring.
        rewrite Rabs_Ropp, Rabs_pos_eq in Hlt by lra. exact Hlt.
      - rewrite Rmult_1_l, Rabs_pos_eq in Hlt by lra. exact Hlt. }
    assert (Hqle : IZR q * bpow e' <= x).
    { rewrite Hxval. apply Rmult_le_compat_r; lra. }
    assert (Hk : (Zdigits2 q + e' <= 1023)%Z).
    { destruct (Z.eq_dec q 0) as [E0|Hqn].
      - specialize (Hq0 E0). rewrite E0. cbn [Zdigits2]. lia.
      - apply digits_of_small; [exact Hqn|].
        rewrite Rabs_pos_eq; [lra|].
        apply Rmult_le_pos; [apply IZR_le; lia | lra]. }
    assert (Hf : faithful (binary_round_aux prec emax false q e' (new_location (Zpos my) r)) x).
    { destruct (Z.eq_dec r 0) as [Er|Hrn].
      - assert (El : new_location (Zpos my) r = loc_Exact) by (apply new_location_exact; exact Er).
        rewrite El.
        replace x with (IZR q * bpow e').
        + apply round_aux_faithful_pos; assumption.
        + rewrite Hxval, Er. unfold Rdiv. ring.
      - apply round_aux_faithful_inexact; try assumption.
        assert (Hrp : 0 < IZR r / IZR (Zpos my)).
        { apply Rmult_lt_0_compat; [apply IZR_lt; lia | apply Rinv_0_lt_compat; lra]. }
        rewrite Hxval, plus_IZR. split.
        + apply Rmult_lt_compat_r; lra.
        + apply Rmult_lt_compat_r; lra. }
    rewrite round_aux_sign.
    destruct (xorb sx sy).
    + replace (-1 * x) with (- x) by ring. apply faithful_opp, Hf.
    + rewrite Rmult_1_l. exact Hf.
Qed.

End Operations.

Section Magnitudes.
Import Double.
Local Open Scope R_scope.

(** ** Powers of two and bounds on a rounded result *)

Lemma Zdigits2_pow2 (j : Z) : (0 <= j)%Z -> Zdigits2 (2 ^ j) = (j + 1)%Z.
Proof.
  intros Hj. apply Zdigits2_unique.
  - replace (j + 1 - 1)%Z with j by lia. split; [lia|].
    apply Z.pow_lt_mono_r; lia.
  - apply Z.pow_pos_nonneg; lia.
Qed.

Lemma pow2_float_ok (K : Z) :
  (-1074 <= K <= 1023)%Z ->
  representable (pow2_float K) /\ B2R (pow2_float K) = bpow K.
Proof.
  intros HK. unfold pow2_float.
  set (e := Z.max (K - 52) (-1074)).
  assert (Hj : (0 <= K - e)%Z) by (unfold e; lia).
  assert (Hp : (0 < 2 ^ (K - e))%Z) by (apply Z.pow_pos_nonneg; lia).
  split.
  - split; [apply is_finite_mk_float|].
    apply valid_mk_float.
    + intros _. rewrite Zdigits2_pow2 by lia. rewrite fexp_eq. unfold e. lia.
    + unfold e. lia.
  - rewrite B2R_mk_float by lia. rewrite F2R_false.
    rewrite <- bpow_IZR by lia. rewrite <- bpow_add. f_equal. lia.
Qed.

Lemma faithful_between (r a b : double) (x : R) :
  faithful r x -> representable a -> representable b ->
  B2R a <= x -> x <= B2R b -> B2R a <= B2R r <= B2R b.
Proof.
  intros [_ Hb] Ha Hbb H1 H2. split.
  - apply (proj1 (Hb a Ha)), H1.
  - apply (proj2 (Hb b Hbb)), H2.
Qed.

Lemma faithful_nonneg (r : double) (x : R) : faithful r x -> 0 <= x -> 0 <= B2R r.
Proof.
  intros [_ Hb] Hx.
  apply (proj1 (Hb (S754_zero false) (representable_zero false))). exact Hx.
Qed.

Lemma faithful_nonpos (r : double) (x : R) : faithful r x -> x <= 0 -> B2R r <= 0.
Proof.
  intros [_ Hb] Hx.
  apply (proj2 (Hb (S754_zero false) (representable_zero false))). exact Hx.
Qed.

Lemma faithful_le_pow (r : double) (x : R) (K : Z) :
  faithful r x -> (-1074 <= K <= 1023)%Z -> x <= bpow K -> B2R r <= bpow K.
Proof.
  intros [_ Hb] HK Hx. destruct (pow2_float_ok K HK) as [Hr Hv].
  rewrite <- Hv. apply (proj2 (Hb _ Hr)). rewrite Hv. exact Hx.
Qed.

Lemma faithful_ge_pow (r : double) (x : R) (K : Z) :
  faithful r x -> (-1074 <= K <= 1023)%Z -> bpow K <= x -> bpow K <= B2R r.
Proof.
  intros [_ Hb] HK Hx. destruct (pow2_float_ok K HK) as [Hr Hv].
  rewrite <- Hv. apply (proj1 (Hb _ Hr)). rewrite Hv. exact Hx.
Qed.

Lemma faithful_abs_le (r : double) (x : R) (K : Z) :
  faithful r x -> (-1074 <= K <= 1023)%Z -> Rabs x <= bpow K -> Rabs (B2R r) <= bpow K.
Proof.
  intros Hf HK Hx.
  pose proof (faithful_le_pow r x K Hf HK) as Hu.
  pose proof (faithful_le_pow (SFopp r) (- x) K (faithful_opp r x Hf) HK) as Hl.
  rewrite B2R_opp in Hl.
  assert (x <= bpow K /\ - x <= bpow K) as [H1 H2].
  { unfold Rabs in Hx. destruct (Rcase_abs x); lra. }
  specialize (Hu H1). specialize (Hl H2).
  unfold Rabs. destruct (Rcase_abs (B2R r)); lra.
Qed.

Lemma representable_multiple (v : double) :
  representable v -> exists z, B2R v = IZR z * bpow (-1074).
Proof.
  intros Hr. destruct v as [s|s| |s m e]; try (exfalso; destruct Hr; discriminate).
  - exists 0%Z. cbn. ring.
  - destruct (representable_finite_inv s m e Hr) as [Hc _]. rewrite fexp_eq in Hc.
    assert (He : (-1074 <= e)%Z) by lia.
    exists (cond_Zopp s (Zpos m * 2 ^ (e + 1074))).
    cbn [B2R]. rewrite <- F2R_cond, F2R_shift by lia. f_equal. lia.
Qed.

Lemma positive_magnitude (v : double) :
  representable v -> 0 < B2R v ->
  exists j, (-1073 <= j <= 1024)%Z /\ bpow (j - 1) <= B2R v < bpow j.
Proof.
  intros Hr Hpos. destruct (representable_pos_inv v Hr Hpos) as (m & e & -> & Hc & He).
  rewrite fexp_eq in Hc.
  pose proof (Zdigits2_pos (Zpos m) ltac:(lia)).
  exists (Zdigits2 (Zpos m) + e)%Z. split; [lia|].
  cbn [B2R]. rewrite F2R_false. apply digits_bpow. lia.
Qed.

Lemma bpow_double (k : Z) : bpow (k + 1) = 2 * bpow k.
Proof. rewrite bpow_add, bpow_1. ring. Qed.

Lemma difference_grid (a b : double) :
  representable a -> representable b ->
  0 < B2R a - B2R b -> bpow (-1074) <= B2R a - B2R b.
Proof.
  intros Ha Hb Hpos.
  destruct (representable_multiple a Ha) as [za Hza].
  destruct (representable_multiple b Hb) as [zb Hzb].
  rewrite Hza, Hzb in *.
  pose proof (bpow_pos (-1074)) as Hpm.
  assert (Hz : IZR zb < IZR za) by nra.
  apply lt_IZR in Hz.
  assert (IZR zb + 1 <= IZR za).
  { rewrite <- plus_IZR. apply IZR_le. lia. }
  nra.
Qed.


(** ** Doubles given by their mantissa and exponent *)

Lemma representable_by_computation (v : double) :
  is_finite v && valid v = true -> representable v.
Proof. intros Hb. apply andb_true_iff in Hb. exact Hb. Qed.

Lemma finite_abs_lt (s : bool) (m : positive) (e k : Z) :
  (Zdigits2 (Zpos m) + e <= k)%Z -> Rabs (B2R (S754_finite s m e)) < bpow k.
Proof.
  intros Hk. cbn [B2R].
  destruct (digits_bpow (Zpos m) e ltac:(lia)) as [Hlo Hhi].
  pose proof (bpow_pos (Zdigits2 (Zpos m) + e - 1)) as Hp.
  pose proof (bpow_le (Zdigits2 (Zpos m) + e) k Hk) as Hle.
  destruct s; [rewrite F2R_true, Rabs_Ropp | rewrite F2R_false];
    rewrite Rabs_pos_eq by lra; lra.
Qed.

Lemma finite_positive (m : positive) (e : Z) : 0 < B2R (S754_finite false m e).
Proof.
  cbn [B2R]. rewrite F2R_false.
  destruct (digits_bpow (Zpos m) e ltac:(lia)) as [Hlo _].
  pose proof (bpow_pos (Zdigits2 (Zpos m) + e - 1)). lra.
Qed.

Lemma bpow_m2 : bpow (-2) = / 4.
Proof.
  assert (H1 : bpow (-2 + 2) = bpow (-2) * bpow 2) by apply bpow_add.
  change (-2 + 2)%Z with 0%Z in H1. rewrite bpow_0 in H1.
  assert (H2 : bpow 2 = 4).
  { change 2%Z with (1 + 1)%Z. rewrite bpow_add, bpow_1. lra. }
  rewrite H2 in H1. lra.
Qed.

Lemma bpow_ge_1 (k : Z) : (0 <= k)%Z -> 1 <= bpow k.
Proof. intros Hk. rewrite <- bpow_0. apply bpow_le. exact Hk. Qed.

Lemma finite_abs_ge (s : bool) (m : positive) (e : Z) :
  (1 <= Zdigits2 (Zpos m) + e)%Z -> 1 <= Rabs (B2R (S754_finite s m e)).
Proof.
  intros Hk. cbn [B2R].
  destruct (digits_bpow (Zpos m) e ltac:(lia)) as [Hlo Hhi].
  pose proof (bpow_ge_1 (Zdigits2 (Zpos m) + e - 1) ltac:(lia)) as Hge.
  destruct s; [rewrite F2R_true, Rabs_Ropp | rewrite F2R_false];
    rewrite Rabs_pos_eq by lra; lra.
Qed.

Lemma bpow_7 : bpow 7 = 128.
Proof. rewrite bpow_IZR by lia. reflexivity. Qed.

Lemma bpow_8 : bpow 8 = 256.
Proof. rewrite bpow_IZR by lia. reflexivity. Qed.

(** ** Operations on doubles of bounded magnitude *)

Lemma within_weaken (i j : Z) (v : double) : (i <= j)%Z -> within i v -> within j v.
Proof.
  intros Hij [Hr Hb]. split; [exact Hr|].
  apply Rle_trans with (bpow i); [exact Hb | apply bpow_le; exact Hij].
Qed.

Lemma within_opp (k : Z) (v : double) : within k v -> within k (SFopp v).
Proof.
  intros [Hr Hb]. split; [apply representable_opp, Hr|].
  rewrite B2R_opp, Rabs_Ropp. exact Hb.
Qed.

Lemma within_finite (s : bool) (m : positive) (e k : Z) :
  is_finite (S754_finite s m e) && valid (S754_finite s m e) = true ->
  (Zdigits2 (Zpos m) + e <= k)%Z -> within k (S754_finite s m e).
Proof.
  intros Hc Hk. split; [apply representable_by_computation, Hc|].
  left. apply finite_abs_lt. exact Hk.
Qed.

Lemma within_mul (i j : Z) (a b : double) :
  (-1074 <= i + j <= 1022)%Z -> within i a -> within j b ->
  within (i + j) (SFmul prec emax a b).
Proof.
  intros Hij [Ha Hab] [Hb Hbb].
  assert (Hprod : Rabs (B2R a * B2R b) <= bpow (i + j)).
  { rewrite Rabs_mult, bpow_add.
    apply Rmult_le_compat; try apply Rabs_pos; assumption. }
  pose proof (bpow_lt (i + j) 1023 ltac:(lia)) as Hlt.
  assert (Hf : faithful (SFmul prec emax a b) (B2R a * B2R b))
    by (apply mul_faithful; [assumption | assumption | lra]).
  split; [apply Hf|].
  apply (faithful_abs_le _ _ (i + j) Hf); [lia | exact Hprod].
Qed.

Lemma Rabs_plus_le (a b ka kb : R) : Rabs a <= ka -> Rabs b <= kb -> Rabs (a + b) <= ka + kb.
Proof. intros Ha Hb. pose proof (Rabs_triang a b). lra. Qed.

Lemma Rabs_minus_le (a b ka kb : R) : Rabs a <= ka -> Rabs b <= kb -> Rabs (a - b) <= ka + kb.
Proof.
  intros Ha Hb. unfold Rminus. apply Rabs_plus_le; [exact Ha|]. rewrite Rabs_Ropp. exact Hb.
Qed.

Lemma within_add (k : Z) (a b : double) :
  (-1075 <= k <= 1021)%Z -> within k a -> within k b ->
  within (k + 1) (SFadd prec emax a b).
Proof.
  intros Hk [Ha Hab] [Hb Hbb].
  assert (Hsum : Rabs (B2R a + B2R b) <= bpow (k + 1)).
  { rewrite bpow_double. pose proof (Rabs_plus_le _ _ _ _ Hab Hbb). lra. }
  pose proof (bpow_lt (k + 1) 1023 ltac:(lia)) as Hlt.
  assert (Hf : faithful (SFadd prec emax a b) (B2R a + B2R b))
    by (apply add_faithful; [assumption | assumption | lra]).
  split; [apply Hf|].
  apply (faithful_abs_le _ _ (k + 1) Hf); [lia | exact Hsum].
Qed.

Lemma within_sub (k : Z) (a b : double) :
  (-1075 <= k <= 1021)%Z -> within k a -> within k b ->
  within (k + 1) (SFsub prec emax a b).
Proof.
  intros Hk [Ha Hab] [Hb Hbb].
  assert (Hsum : Rabs (B2R a - B2R b) <= bpow (k + 1)).
  { rewrite bpow_double. pose proof (Rabs_minus_le _ _ _ _ Hab Hbb). lra. }
  pose proof (bpow_lt (k + 1) 1023 ltac:(lia)) as Hlt.
  assert (Hf : faithful (SFsub prec emax a b) (B2R a - B2R b))
    by (apply sub_faithful; [assumption | assumption | lra]).
  split; [apply Hf|].
  apply (faithful_abs_le _ _ (k + 1) Hf); [lia | exact Hsum].
Qed.

(** Dividing by a double of magnitude at least one. *)
Lemma within_div (k : Z) (a b : double) :
  (-1074 <= k <= 1022)%Z -> within k a -> representable b -> 1 <= Rabs (B2R b) ->
  within k (SFdiv prec emax a b).
Proof.
  intros Hk [Ha Hab] Hb Hb1.
  assert (Hnz : B2R b <> 0).
  { intros E. rewrite E, Rabs_R0 in Hb1. lra. }
  assert (Hq : Rabs (B2R a / B2R b) <= bpow k).
  { unfold Rdiv. rewrite Rabs_mult, Rabs_inv.
    apply Rle_trans with (Rabs (B2R a)); [|exact Hab].
    rewrite <- (Rmult_1_r (Rabs (B2R a))) at 2.
    apply Rmult_le_compat_l; [apply Rabs_pos|].
    rewrite <- Rinv_1. apply Rinv_le_contravar; lra. }
  pose proof (bpow_lt k 1023 ltac:(lia)) as Hlt.
  assert (Hf : faithful (SFdiv prec emax a b) (B2R a / B2R b))
    by (apply div_faithful; [assumption | assumption | assumption | lra]).
  split; [apply Hf|].
  apply (faithful_abs_le _ _ k Hf); [lia | exact Hq].
Qed.

Lemma d_min_cases (a b : double) :
  representable a -> representable b -> d_min a b = a \/ d_min a b = b.
Proof.
  intros [Hfa _] [Hfb _]. unfold d_min.
  destruct a as [sa|sa| |sa ma ea]; try discriminate;
    destruct b as [sb|sb| |sb mb eb]; try discriminate;
    cbn [SFcompare];
    repeat match goal with
           | |- context [if ?c then _ else _] => destruct c
           | |- context [match ?c with Eq => _ | Lt => _ | Gt => _ end] => destruct c
           end; auto.
Qed.

Lemma within_min (k : Z) (a b : double) : within k a -> within k b -> within k (d_min a b).
Proof.
  intros Ha Hb. destruct (d_min_cases a b (proj1 Ha) (proj1 Hb)) as [-> | ->]; assumption.
Qed.

Lemma within_range (k : Z) (v : double) (b : R) :
  representable v -> - b <= B2R v <= b -> b <= bpow k -> within k v.
Proof.
  intros Hr Hb Hk. split; [exact Hr|].
  unfold Rabs. destruct (Rcase_abs (B2R v)); lra.
Qed.

Lemma within_small_integer (z : Z) (k : Z) :
  match d_ofZ z with
  | S754_finite s m e =>
      is_finite (d_ofZ z) && valid (d_ofZ z) && (Zdigits2 (Zpos m) + e <=? k)%Z
  | S754_zero _ => (-1074 <=? k)%Z
  | _ => false
  end = true ->
  within k (d_ofZ z).
Proof.
  destruct (d_ofZ z) as [s|s| |s m e] eqn:E; intros Hc; try discriminate.
  - split; [apply representable_zero|]. cbn [B2R]. rewrite Rabs_R0. left. apply bpow_pos.
  - apply andb_true_iff in Hc. destruct Hc as [Hc Hk].
    apply within_finite; [exact Hc | apply Z.leb_le, Hk].
Qed.

(** ** The constants of the projection *)

Lemma two_double : representable (d_ofZ 2) /\ 1 <= Rabs (B2R (d_ofZ 2)).
Proof.
  assert (E : d_ofZ 2 = S754_finite false 4503599627370496 (-51)) by (vm_compute; reflexivity).
  rewrite E. split.
  - apply representable_by_computation. vm_compute. reflexivity.
  - apply finite_abs_ge. vm_compute. discriminate.
Qed.

Lemma d180_double : representable (d_ofZ 180) /\ 1 <= Rabs (B2R (d_ofZ 180)).
Proof.
  assert (E : d_ofZ 180 = S754_finite false 6333186975989760 (-45)) by (vm_compute; reflexivity).
  rewrite E. split.
  - apply representable_by_computation. vm_compute. reflexivity.
  - apply finite_abs_ge. vm_compute. discriminate.
Qed.

Lemma PI_within : within 2 d_PI.
Proof. apply within_finite; [vm_compute; reflexivity | vm_compute; discriminate]. Qed.

Lemma dec_95_within : within 0 (dec 95 100 : double).
Proof.
  assert (E : (dec 95 100 : double) = S754_finite false 8556839292003942 (-53))
    by (vm_compute; reflexivity).
  rewrite E. apply within_finite; [vm_compute; reflexivity | vm_compute; discriminate].
Qed.

End Magnitudes.

(** * Facts over binary64 *)

Section DoubleRotation.
Import Double.
Local Open Scope R_scope.

(** ** The constants of [onRender] and of the sequence *)

Lemma strength_value : (H.strength : double) = S754_finite false 8646911284551352 (-57).
Proof. vm_compute. reflexivity. Qed.


Lemma phi_init_is_mount_phi (sz : H.size_t) : H.phi (H.mount sz) = phi_init.
Proof. reflexivity. Qed.

Lemma phi_init_double : (phi_init : double) = S754_finite false 6366813976825596 (-52).
Proof. vm_compute. reflexivity. Qed.

Lemma lonToPhi_3_double : (H.lonToPhi (d_ofZ 3) : double) = S754_finite true 7545853602163669 (-57).
Proof. vm_compute. reflexivity. Qed.

Lemma strength_small : representable H.strength /\ 0 < B2R H.strength <= / 4.
Proof.
  rewrite strength_value. split.
  - apply representable_by_computation. vm_compute. reflexivity.
  - split; [apply finite_positive|].
    pose proof (finite_abs_lt false 8646911284551352 (-57) (-2) ltac:(vm_compute; discriminate)) as Hlt.
    rewrite Rabs_pos_eq in Hlt by (left; apply finite_positive).
    rewrite bpow_m2 in Hlt. lra.
Qed.




(** One interpolation step over binary64. *)
Lemma interpolate_double (s t phi : double) :
  H.interpolate s t phi = SFadd prec emax phi (SFmul prec emax (SFsub prec emax t phi) s).
Proof. reflexivity. Qed.

(** ** A target that is a number but not finite

    [typeof t === "number"] also holds for NaN and the infinities, so
    [onRender] would use such a target; the component never stores one
    (lemma [step_target]). *)

Lemma nan_target_poisons_phi (phi : double) :
  H.onRender_phi (Num (S754_nan : double)) phi = S754_nan.
Proof.
  unfold H.onRender_phi. rewrite interpolate_double, strength_value.
  destruct phi as [s|s| |s m e]; reflexivity.
Qed.

Lemma inf_target_reaches_phi (s : bool) (phi : double) :
  is_finite phi = true ->
  H.onRender_phi (Num (S754_infinity s : double)) phi = S754_infinity s.
Proof.
  intros Hf. unfold H.onRender_phi. rewrite interpolate_double, strength_value.
  destruct phi as [s'|s'| |s' m e]; try discriminate; destruct s; reflexivity.
Qed.

(** ** One seeking step

    [phi + (t - phi) * s] is three rounded operations.  For a strength of at
    most a quarter the rounded product [(t - phi) * s] lies between zero
    and the exact difference [t - phi], so the step cannot pass the
    target. *)

(** A faithful rounding of [d1 * sv], where [d1] is a faithful rounding of
    [X >= 0] and [sv <= 1/4], lies between zero and [X]. *)
Lemma damped_core (X sv : R) (d1 d2 : double) :
  faithful d1 X ->
  0 <= X <= bpow 1022 ->
  (0 < X -> bpow (-1074) <= X) ->
  0 < sv <= / 4 ->
  faithful d2 (B2R d1 * sv) ->
  0 <= B2R d2 <= X.
Proof.
  intros Hf1 [HX0 HXle] HXmin Hsv Hf2.
  pose proof (faithful_nonneg d1 X Hf1 HX0) as Hd1nn.
  split; [apply (faithful_nonneg d2 _ Hf2); apply Rmult_le_pos; lra|].
  destruct (Req_dec (B2R d1) 0) as [Hz|Hnz].
  - assert (B2R d2 <= 0).
    { apply (faithful_nonpos d2 _ Hf2). rewrite Hz. lra. }
    lra.
  - assert (Hd1pos : 0 < B2R d1) by lra.
    destruct (positive_magnitude d1 (proj1 Hf1) Hd1pos) as (j & Hj & Hjl & Hjh).
    assert (HXpos : 0 < X).
    { destruct (Rle_lt_dec X 0) as [Hn|]; [|assumption].
      pose proof (faithful_nonpos d1 X Hf1 Hn). lra. }
    specialize (HXmin HXpos).
    set (K := Z.max (j - 2) (-1074)).
    assert (HK : (-1074 <= K <= 1023)%Z) by (unfold K; lia).
    assert (HPX : bpow K <= X).
    { unfold K. destruct (Z_le_gt_dec (-1074) (j - 2)) as [Hge|Hlt].
      - replace (Z.max (j - 2) (-1074)) with (j - 2)%Z by lia.
        destruct (Rle_lt_dec (bpow (j - 2)) X) as [|Hcontra]; [assumption|].
        exfalso.
        pose proof (faithful_le_pow d1 X (j - 2) Hf1 ltac:(lia) ltac:(lra)) as Hd.
        pose proof (bpow_lt (j - 2) (j - 1) ltac:(lia)). lra.
      - replace (Z.max (j - 2) (-1074)) with (-1074)%Z by lia. exact HXmin. }
    assert (HsP : B2R d1 * sv <= bpow K).
    { assert (Hj2 : bpow j = 4 * bpow (j - 2)).
      { replace j with (2 + (j - 2))%Z at 1 by lia. rewrite bpow_add.
        replace 2%Z with (1 + 1)%Z by lia. rewrite bpow_add, bpow_1. ring. }
      pose proof (bpow_le (j - 2) K ltac:(unfold K; lia)).
      pose proof (bpow_pos (j - 2)). nra. }
    pose proof (faithful_le_pow d2 _ K Hf2 HK HsP). lra.
Qed.

(** The damped difference [(a - b) * s] lies between zero and [a - b]. *)
Lemma damped_difference (s a b : double) :
  representable s -> representable a -> representable b ->
  0 < B2R s <= / 4 ->
  Rabs (B2R a) <= bpow 1021 -> Rabs (B2R b) <= bpow 1021 ->
  let d2 := SFmul prec emax (SFsub prec emax a b) s in
  representable d2 /\
  (B2R b <= B2R a -> 0 <= B2R d2 <= B2R a - B2R b) /\
  (B2R a <= B2R b -> B2R a - B2R b <= B2R d2 <= 0).
Proof.
  intros Hs Ha Hb Hsv Hma Hmb d2.
  set (X := B2R a - B2R b).
  assert (Hb1022 : bpow 1022 = 2 * bpow 1021) by exact (bpow_double 1021).
  assert (Hb1023 : bpow 1023 = 2 * bpow 1022) by exact (bpow_double 1022).
  pose proof (bpow_pos 1021) as Hp1021.
  assert (HXle : Rabs X <= bpow 1022).
  { unfold X, Rabs in *. destruct (Rcase_abs (B2R a)), (Rcase_abs (B2R b)),
      (Rcase_abs (B2R a - B2R b)); lra. }
  assert (Hf1 : faithful (SFsub prec emax a b) X).
  { apply sub_faithful; try assumption. fold X. lra. }
  set (d1 := SFsub prec emax a b) in *.
  pose proof (faithful_abs_le d1 X 1022 Hf1 ltac:(lia) HXle) as Hd1le.
  assert (Hf2 : faithful d2 (B2R d1 * B2R s)).
  { apply mul_faithful; [apply Hf1 | exact Hs |].
    rewrite Rabs_mult. rewrite (Rabs_pos_eq (B2R s)) by lra.
    pose proof (Rabs_pos (B2R d1)). nra. }
  split; [apply Hf2|]. split.
  - intros Hle.
    apply (damped_core X (B2R s) d1 d2 Hf1).
    + unfold X. rewrite Rabs_pos_eq in HXle by (unfold X; lra). unfold X in HXle. lra.
    + intros Hpos. apply difference_grid; assumption.
    + exact Hsv.
    + exact Hf2.
  - intros Hle.
    assert (Hc : 0 <= B2R (SFopp d2) <= - X).
    { apply (damped_core (- X) (B2R s) (SFopp d1) (SFopp d2)).
      - apply faithful_opp, Hf1.
      - split; [unfold X; lra|]. rewrite <- Rabs_Ropp in HXle.
        rewrite Rabs_pos_eq in HXle by (unfold X; lra). exact HXle.
      - intros Hpos. replace (- X) with (B2R b - B2R a) by (unfold X; ring).
        apply difference_grid; try assumption. unfold X in Hpos. lra.
      - exact Hsv.
      - rewrite B2R_opp. replace (- B2R d1 * B2R s) with (- (B2R d1 * B2R s)) by ring.
        apply faithful_opp, Hf2. }
    rewrite B2R_opp in Hc. lra.
Qed.

Lemma seek_step_between (s T phi : double) :
  representable s -> representable T -> representable phi ->
  0 < B2R s <= / 4 ->
  Rabs (B2R T) <= bpow 1021 -> Rabs (B2R phi) <= bpow 1021 ->
  let p := H.interpolate s T phi in
  representable p /\
  (B2R phi <= B2R T -> B2R phi <= B2R p <= B2R T) /\
  (B2R T <= B2R phi -> B2R T <= B2R p <= B2R phi).
Proof.
  intros Hs HT Hphi Hsv HmT Hmphi p.
  unfold p. rewrite interpolate_double.
  destruct (damped_difference s T phi Hs HT Hphi Hsv HmT Hmphi) as (Hd2 & Hup & Hdown).
  set (d2 := SFmul prec emax (SFsub prec emax T phi) s) in *.
  assert (Hb1022 : bpow 1022 = 2 * bpow 1021) by exact (bpow_double 1021).
  assert (Hb1023 : bpow 1023 = 2 * bpow 1022) by exact (bpow_double 1022).
  pose proof (bpow_pos 1021) as Hp1021.
  assert (Hsum : Rabs (B2R phi + B2R d2) <= bpow 1021).
  { destruct (Rle_lt_dec (B2R phi) (B2R T)) as [Hle|Hgt].
    - specialize (Hup Hle). unfold Rabs in *.
      destruct (Rcase_abs (B2R phi)), (Rcase_abs (B2R T)),
        (Rcase_abs (B2R phi + B2R d2)); lra.
    - specialize (Hdown ltac:(lra)). unfold Rabs in *.
      destruct (Rcase_abs (B2R phi)), (Rcase_abs (B2R T)),
        (Rcase_abs (B2R phi + B2R d2)); lra. }
  assert (Hf : faithful (SFadd prec emax phi d2) (B2R phi + B2R d2)).
  { apply add_faithful; try assumption. lra. }
  split; [apply Hf|]. split.
  - intros Hle. specialize (Hup Hle).
    apply (faithful_between _ phi T _ Hf Hphi HT); lra.
  - intros Hle. specialize (Hdown Hle).
    apply (faithful_between _ T phi _ Hf HT Hphi); lra.
Qed.

Lemma seek_step_rounded (s T phi : double) :
  representable s -> representable T -> representable phi ->
  0 < B2R s <= / 4 ->
  Rabs (B2R T) <= bpow 1021 -> Rabs (B2R phi) <= bpow 1021 ->
  exists d1 d2,
    faithful d1 (B2R T - B2R phi) /\
    faithful d2 (B2R d1 * B2R s) /\
    faithful (H.interpolate s T phi) (B2R phi + B2R d2).
Proof.
  intros Hs HT Hphi Hsv HmT Hmphi.
  exists (SFsub prec emax T phi), (SFmul prec emax (SFsub prec emax T phi) s).
  assert (Hb1022 : bpow 1022 = 2 * bpow 1021) by exact (bpow_double 1021).
  assert (Hb1023 : bpow 1023 = 2 * bpow 1022) by exact (bpow_double 1022).
  pose proof (bpow_pos 1021) as Hp1021.
  assert (HXle : Rabs (B2R T - B2R phi) <= bpow 1022).
  { unfold Rabs in *. destruct (Rcase_abs (B2R T)), (Rcase_abs (B2R phi)),
      (Rcase_abs (B2R T - B2R phi)); lra. }
  assert (Hf1 : faithful (SFsub prec emax T phi) (B2R T - B2R phi)).
  { apply sub_faithful; try assumption. lra. }
  pose proof (faithful_abs_le _ _ 1022 Hf1 ltac:(lia) HXle) as Hd1le.
  assert (Hf2 : faithful (SFmul prec emax (SFsub prec emax T phi) s)
                  (B2R (SFsub prec emax T phi) * B2R s)).
  { apply mul_faithful; [apply Hf1 | exact Hs |].
    rewrite Rabs_mult. rewrite (Rabs_pos_eq (B2R s)) by lra.
    pose proof (Rabs_pos (B2R (SFsub prec emax T phi))). nra. }
  split; [exact Hf1 | split; [exact Hf2 |]].
  rewrite interpolate_double.
  destruct (damped_difference s T phi Hs HT Hphi Hsv HmT Hmphi) as (Hd2 & Hup & Hdown).
  set (d2 := SFmul prec emax (SFsub prec emax T phi) s) in *.
  apply add_faithful; [exact Hphi | exact Hd2 |].
  destruct (Rle_lt_dec (B2R phi) (B2R T)) as [Hle|Hgt].
  - specialize (Hup Hle). unfold Rabs in *.
    destruct (Rcase_abs (B2R phi)), (Rcase_abs (B2R T)),
      (Rcase_abs (B2R phi + B2R d2)); lra.
  - specialize (Hdown ltac:(lra)). unfold Rabs in *.
    destruct (Rcase_abs (B2R phi)), (Rcase_abs (B2R T)),
      (Rcase_abs (B2R phi + B2R d2)); lra.
Qed.

Lemma seek_n_between (s T phi0 : double) :
  representable s -> representable T -> representable phi0 ->
  0 < B2R s <= / 4 ->
  Rabs (B2R T) <= bpow 1021 -> Rabs (B2R phi0) <= bpow 1021 ->
  forall n,
    representable (H.seek_n s T n phi0) /\
    (B2R phi0 <= B2R T -> B2R phi0 <= B2R (H.seek_n s T n phi0) <= B2R T) /\
    (B2R T <= B2R phi0 -> B2R T <= B2R (H.seek_n s T n phi0) <= B2R phi0).
Proof.
  intros Hs HT Hphi Hsv HmT Hmphi n. induction n as [|n (Hr & Hup & Hdown)].
  - cbn [H.seek_n]. split; [exact Hphi|]. split; intros; lra.
  - cbn [H.seek_n]. set (p := H.seek_n s T n phi0) in *.
    assert (Hmp : Rabs (B2R p) <= bpow 1021).
    { destruct (Rle_lt_dec (B2R phi0) (B2R T)) as [Hle|Hgt].
      - specialize (Hup Hle). unfold Rabs in *.
        destruct (Rcase_abs (B2R phi0)), (Rcase_abs (B2R T)), (Rcase_abs (B2R p)); lra.
      - specialize (Hdown ltac:(lra)). unfold Rabs in *.
        destruct (Rcase_abs (B2R phi0)), (Rcase_abs (B2R T)), (Rcase_abs (B2R p)); lra. }
    destruct (seek_step_between s T p Hs HT Hr Hsv HmT Hmp) as (Hr' & Hup' & Hdown').
    split; [exact Hr'|]. split; intros Hle.
    + specialize (Hup Hle). specialize (Hup' ltac:(lra)). lra.
    + specialize (Hdown Hle). specialize (Hdown' ltac:(lra)). lra.
Qed.

(** C6 (amended).  Over binary64, for a strength [0 < s <= 1/4] (the code's
    is 0.06) and a finite rotation and target of magnitude at most [2^1021],
    every frame of the seeking update computes [phi + (T - phi) * s] with
    each of its three operations rounded faithfully, and the new [phi] is
    finite and lies between the old [phi] and [T] (inclusive): [|T - phi|]
    never grows and [T - phi] never changes sign, so there is no
    overshoot. *)
Theorem seeking_stays_between_phi_and_target (s T phi0 : double) :
  representable s -> representable T -> representable phi0 ->
  0 < B2R s <= / 4 ->
  Rabs (B2R T) <= bpow 1021 -> Rabs (B2R phi0) <= bpow 1021 ->
  forall n,
    let p := H.seek_n s T n phi0 in
    let p' := H.seek_n s T (S n) phi0 in
    is_finite p' = true /\
    (exists d1 d2, faithful d1 (B2R T - B2R p) /\
                   faithful d2 (B2R d1 * B2R s) /\
                   faithful p' (B2R p + B2R d2)) /\
    Rabs (B2R T - B2R p') <= Rabs (B2R T - B2R p) /\
    (B2R phi0 <= B2R T -> B2R p <= B2R p' <= B2R T) /\
    (B2R T <= B2R phi0 -> B2R T <= B2R p' <= B2R p).
Proof.
  intros Hs HT Hphi Hsv HmT Hmphi n p p'.
  destruct (seek_n_between s T phi0 Hs HT Hphi Hsv HmT Hmphi n) as (Hr & Hup & Hdown).
  fold p in Hr, Hup, Hdown.
  assert (Hmp : Rabs (B2R p) <= bpow 1021).
  { destruct (Rle_lt_dec (B2R phi0) (B2R T)) as [Hle|Hgt].
    - specialize (Hup Hle). unfold Rabs in *.
      destruct (Rcase_abs (B2R phi0)), (Rcase_abs (B2R T)), (Rcase_abs (B2R p)); lra.
    - specialize (Hdown ltac:(lra)). unfold Rabs in *.
      destruct (Rcase_abs (B2R phi0)), (Rcase_abs (B2R T)), (Rcase_abs (B2R p)); lra. }
  destruct (seek_step_between s T p Hs HT Hr Hsv HmT Hmp) as (Hr' & Hup' & Hdown').
  change (H.interpolate s T p) with p' in Hr', Hup', Hdown'.
  split; [apply Hr'|].
  split; [exact (seek_step_rounded s T p Hs HT Hr Hsv HmT Hmp)|].
  split.
  - destruct (Rle_lt_dec (B2R p) (B2R T)) as [Hle|Hgt].
    + specialize (Hup' Hle). rewrite !Rabs_pos_eq by lra. lra.
    + specialize (Hdown' ltac:(lra)).
      rewrite <- (Rabs_Ropp (B2R T - B2R p')), <- (Rabs_Ropp (B2R T - B2R p)).
      rewrite !Rabs_pos_eq by lra. lra.
  - split; intros Hle.
    + specialize (Hup Hle). specialize (Hup' ltac:(lra)). lra.
    + specialize (Hdown Hle). specialize (Hdown' ltac:(lra)). lra.
Qed.

Lemma seeking_from_mount_toward_first_player :
    let s := H.strength in
    let T := H.lonToPhi (d_ofZ 3) in
    let p := H.seek_n s T 0 phi_init in
    let p' := H.seek_n s T 1 phi_init in
    is_finite p' = true /\
    (exists d1 d2, faithful d1 (B2R T - B2R p) /\
                   faithful d2 (B2R d1 * B2R s) /\
                   faithful p' (B2R p + B2R d2)) /\
    Rabs (B2R T - B2R p') <= Rabs (B2R T - B2R p) /\
    (B2R phi_init <= B2R T -> B2R p <= B2R p' <= B2R T) /\
    (B2R T <= B2R phi_init -> B2R T <= B2R p' <= B2R p).
Proof.
  apply (seeking_stays_between_phi_and_target
           H.strength (H.lonToPhi (d_ofZ 3)) phi_init).
  - apply strength_small.
  - apply representable_by_computation. vm_compute. reflexivity.
  - apply representable_by_computation. vm_compute. reflexivity.
  - apply strength_small.
  - rewrite lonToPhi_3_double. left.
    apply Rlt_le_trans with (bpow 0);
      [apply finite_abs_lt; vm_compute; discriminate | apply bpow_le; lia].
  - rewrite phi_init_double. left.
    apply Rlt_le_trans with (bpow 1);
      [apply finite_abs_lt; vm_compute; discriminate | apply bpow_le; lia].
Defined.

(** ** Where the iterates stop *)

Lemma seek_n_fixed (s T p : double) (k : nat) :
  H.interpolate s T p = p -> H.seek_n s T k p = p.
Proof.
  intros Hfix. induction k as [|k IH]; [reflexivity|].
  cbn [H.seek_n]. rewrite IH. exact Hfix.
Qed.

Lemma seek_n_add (s T p : double) (a b : nat) :
  H.seek_n s T (a + b) p = H.seek_n s T a (H.seek_n s T b p).
Proof.
  induction a as [|a IH]; [reflexivity|].
  cbn [H.seek_n Nat.add]. rewrite IH. reflexivity.
Qed.

Lemma stall_after_autoplay_value :
  let st := H.step (H.steps (H.mount (H.onResize (d_ofZ 1920))) (autoplay_events 60)) (H.Click 0) in
  H.targetPhi st = Num (H.lonToPhi (d_ofZ 3)) /\
  H.pc st = H.Returned /\
  H.seek_n H.strength (H.lonToPhi (d_ofZ 3)) 563 (H.phi st)
    = S754_finite true 7545853602163661 (-57) /\
  H.interpolate H.strength (H.lonToPhi (d_ofZ 3)) (S754_finite true 7545853602163661 (-57))
    = S754_finite true 7545853602163661 (-57).
Proof. vm_compute. repeat split. Qed.

(** C6 as stated fails.  On a 60 Hz display, once the automatic sequence
    has ended and the pin of the first player is clicked, the target stays
    [lonToPhi(3)]; 563 frames later [phi] has stopped eight units in the
    last place short of the target and no later frame moves it: [|T - phi|]
    no longer shrinks and [phi] does not converge to [T]. *)
Lemma seeking_stalls_short_of_target :
  let st := H.step (H.steps (H.mount (H.onResize (d_ofZ 1920))) (autoplay_events 60))
              (H.Click 0) in
  let T := H.lonToPhi (d_ofZ 3) in
  let p := H.phi (H.frames 563 st) in
  H.targetPhi st = Num T /\
  (forall k, H.phi (H.frames (k + 563) st) = p) /\
  SFltb T p = true /\
  T = S754_finite true 7545853602163669 (-57) /\
  p = S754_finite true 7545853602163661 (-57).
Proof.
  cbv zeta.
  destruct stall_after_autoplay_value as (Ht & Hpc & Hp & Hfix). cbv zeta in Ht, Hpc, Hp, Hfix.
  split; [exact Ht|].
  assert (E : forall k, H.phi (H.frames (k + 563)
                 (H.step (H.steps (H.mount (H.onResize (d_ofZ 1920))) (autoplay_events 60)) (H.Click 0)))
              = S754_finite true 7545853602163661 (-57)).
  { intros k. rewrite (frames_seek _ _ _ Ht), seek_n_add, Hp.
    apply seek_n_fixed. exact Hfix. }
  pose proof (E 0%nat) as E0. change (0 + 563)%nat with 563%nat in E0.
  split; [|split; [|split]].
  - intros k. rewrite (E k), E0. reflexivity.
  - rewrite E0. vm_compute. reflexivity.
  - vm_compute. reflexivity.
  - exact E0.
Qed.

(** ** The rotation of every session

    Whatever events occur, [phi] stays a finite number between [-1] and
    [2^60]: a seeking frame moves it toward a target of magnitude below
    one, and an idle frame adds [0.0006], which a [phi] of [2^60] absorbs. *)








(** ** After the automatic sequence *)

Lemma autoplay_60_ends (sz : H.size_t) :
  let st := H.steps (H.mount sz) (autoplay_events 60) in
  H.running st = false /\ H.pc st = H.Returned /\ H.targetPhi st = Null /\
  H.activeIndex st = None /\
  H.phi st = S754_finite false 5098909043558973 (-57).
Proof. vm_compute. repeat split. Qed.

(** C3 (the code diverges from the claim).  On a 60 Hz display, when the
    automatic sequence has shown the last player and reached the loop
    limit, it stops ([running = false], [run()] has returned, later timers
    change nothing) and clears the target; from then on every frame adds
    the idle increment [0.0006] to [phi], and the first frame already
    leaves [phi] strictly greater: the rotation is not held. *)
Theorem rotation_drifts_after_sequence (sz : H.size_t) :
  let st := H.steps (H.mount sz) (autoplay_events 60) in
  H.running st = false /\
  H.pc st = H.Returned /\
  H.targetPhi st = Null /\
  H.timer st = st /\
  (forall n, H.phi (H.frames (S n) st)
             = SFadd prec emax (H.phi (H.frames n st)) H.idle_step) /\
  SFltb (H.phi st) (H.phi (H.step st H.Frame)) = true.
Proof.
  cbv zeta.
  destruct (autoplay_60_ends sz) as (Hrun & Hpc & Ht & _ & Ephi).
  cbv zeta in Hrun, Hpc, Ht, Ephi.
  split; [exact Hrun|]. split; [exact Hpc|]. split; [exact Ht|].
  split; [unfold H.timer; rewrite Hpc; reflexivity|].
  split.
  - intros n. exact (idle_frames _ n Ht).
  - cbn [H.step]. unfold H.onRender. cbn [H.phi]. rewrite Ht, Ephi.
    vm_compute. reflexivity.
Qed.

End DoubleRotation.

Section DoubleCards.
Import Double.
Context {T : Trig double}.

(** ** The card of a marker that is not visible *)

(** C8 (the code diverges from the claim).  For a window 1920 px wide the
    canvas is 780 px wide.  When the first card is drawn, no frame has been
    rendered yet, so the marker is not visible and its position is the
    sentinel: [HomepageAnimation] anchors the card at left 60, the left
    margin, and top 36, not at the horizontal centre 390.  The popup of
    [GlobeWithPins], whose marker is not visible either, is anchored at the
    centre [offsetWidth / 2] and top 28. *)
Theorem hidden_marker_card_at_left_margin (wr : G.wrapper_el) (scrollY : double) :
  let sz := H.onResize (d_ofZ 1920) in
  let st := H.mount sz in
  let page := G.step (G.mount wr) (G.PinClick 0) in
  sz = {| H.w := d_ofZ 780; H.h := d_ofZ 780 |} /\
  H.activeIndex st = Some 0%Z /\
  H.latLngToScreen (H.globeRef st) true sz (d_ofZ 36) (d_ofZ 3)
    = {| x := d_ofZ (-9999); y := d_ofZ (-9999); visible := false |} /\
  H.render_card st = Some {| H.left := d_ofZ 60; H.top := d_ofZ 36 |} /\
  SFdiv prec emax (H.w sz) (d_ofZ 2) = d_ofZ 390 /\
  G.render_popup scrollY page
    = Some {| G.cardLeft := SFdiv prec emax (G.offsetWidth wr) (d_ofZ 2);
              G.cardTop := d_ofZ 28 |}.
Proof.
  cbv zeta.
  split; [vm_compute; reflexivity|].
  split; [reflexivity|].
  split; [reflexivity|].
  split; [vm_compute; reflexivity|].
  split; [vm_compute; reflexivity|].
  reflexivity.
Qed.

End DoubleCards.

Section DoubleSizes.
Import Double.

(** ** The size of the canvas *)

Lemma forallb_range (P : Z -> bool) (n : Z) :
  forallb P (map Z.of_nat (seq 0 (Z.to_nat n))) = true ->
  forall z : Z, (0 <= z < n)%Z -> P z = true.
Proof.
  intros Hall z Hz. rewrite forallb_forall in Hall. apply Hall.
  apply in_map_iff. exists (Z.to_nat z). split; [lia|].
  apply in_seq. lia.
Qed.

(** X5.  For a window 0 to 8000 px wide, [onResize] sets a square canvas
    whose side is a whole number of pixels between 560 and 780: the cap of
    980 in the source is never reached, because 65% of the 1200 px limit is
    780. *)
Theorem onResize_square_560_to_780 (innerWidth : Z) :
  (0 <= innerWidth <= 8000)%Z ->
  let sz := H.onResize (d_ofZ innerWidth) in
  SFleb (d_ofZ 560) (H.w sz) = true /\
  SFleb (H.w sz) (d_ofZ 780) = true /\
  SFeqb (d_round (H.w sz)) (H.w sz) = true /\
  SFeqb (H.h sz) (H.w sz) = true.
Proof.
  intros Hr. cbv zeta.
  assert (Hall : forallb
                   (fun z => let sz := H.onResize (d_ofZ z) in
                             SFleb (d_ofZ 560) (H.w sz) && SFleb (H.w sz) (d_ofZ 780) &&
                             SFeqb (d_round (H.w sz)) (H.w sz) && SFeqb (H.h sz) (H.w sz))
                   (map Z.of_nat (seq 0 (Z.to_nat 8001))) = true)
    by (vm_compute; reflexivity).
  pose proof (forallb_range _ 8001%Z Hall innerWidth ltac:(lia)) as Hz.
  cbv zeta in Hz.
  apply andb_true_iff in Hz. destruct Hz as [Hz H4].
  apply andb_true_iff in Hz. destruct Hz as [Hz H3].
  apply andb_true_iff in Hz. destruct Hz as [H1 H2].
  repeat split; assumption.
Qed.

Lemma onResize_at_1920 :
  let sz := H.onResize (d_ofZ 1920) in
  SFleb (d_ofZ 560) (H.w sz) = true /\
  SFleb (H.w sz) (d_ofZ 780) = true /\
  SFeqb (d_round (H.w sz)) (H.w sz) = true /\
  SFeqb (H.h sz) (H.w sz) = true.
Proof. apply (onResize_square_560_to_780 1920). lia. Defined.

End DoubleSizes.

Section DoubleProjection.
Import Double.
Local Open Scope R_scope.
Context {T : Trig double}.

(** ** The projected point is finite

    [Math.sin] and [Math.cos] are implementation-approximated; what is
    assumed of them is that a finite argument gives a finite result between
    [-1] and [1]. *)
Hypothesis sin_range :
  forall v : double, representable v ->
    representable (Math_sin v) /\ Rabs (B2R (Math_sin v)) <= 1.
Hypothesis cos_range :
  forall v : double, representable v ->
    representable (Math_cos v) /\ Rabs (B2R (Math_cos v)) <= 1.

Lemma sin_within (v : double) : representable v -> within 0 (Math_sin v).
Proof. intros Hv. unfold within. rewrite bpow_0. apply sin_range, Hv. Qed.

Lemma cos_within (v : double) : representable v -> within 0 (Math_cos v).
Proof. intros Hv. unfold within. rewrite bpow_0. apply cos_range, Hv. Qed.

Lemma radians_representable (k : Z) (a : double) :
  (0 <= k <= 1000)%Z -> within k a ->
  representable (SFdiv prec emax (SFmul prec emax a d_PI) (d_ofZ 180)).
Proof.
  intros Hk Ha.
  apply (within_div (k + 2) _ (d_ofZ 180)); [lia | | apply d180_double | apply d180_double].
  apply within_mul; [lia | exact Ha | exact PI_within].
Qed.

Lemma xr_of_within (lat lng rot : double) :
  within 7 lat -> within 8 lng -> representable rot ->
  within 1 (xr_of lat lng rot).
Proof.
  intros Hlat Hlng Hrot. unfold xr_of.
  change (@mul double D_Number) with (SFmul prec emax).
  change (@add double D_Number) with (SFadd prec emax).
  change (@div double D_Number) with (SFdiv prec emax).
  change (@ofZ double D_Number) with d_ofZ.
  change (@Math_PI double D_Number) with d_PI.
  pose proof (radians_representable 7 lat ltac:(lia) Hlat) as HphiLat.
  pose proof (radians_representable 8 lng ltac:(lia) Hlng) as Hlambda.
  set (phiLat := SFdiv prec emax (SFmul prec emax lat d_PI) (d_ofZ 180)) in *.
  set (lambda := SFdiv prec emax (SFmul prec emax lng d_PI) (d_ofZ 180)) in *.
  apply (within_add 0); [lia | |].
  - apply (within_mul 0 0); [lia | | apply cos_within, Hrot].
    apply (within_mul 0 0); [lia | apply cos_within, HphiLat | apply cos_within, Hlambda].
  - apply (within_mul 0 0); [lia | | apply sin_within, Hrot].
    apply (within_mul 0 0); [lia | apply cos_within, HphiLat | apply sin_within, Hlambda].
Qed.

Lemma y_of_within (lat : double) : within 7 lat -> within 0 (y_of lat).
Proof.
  intros Hlat. unfold y_of.
  change (@mul double D_Number) with (SFmul prec emax).
  change (@div double D_Number) with (SFdiv prec emax).
  change (@ofZ double D_Number) with d_ofZ.
  change (@Math_PI double D_Number) with d_PI.
  apply sin_within. apply (radians_representable 7 lat ltac:(lia) Hlat).
Qed.

Lemma home_xy_double (g : H.globe_snapshot) (sz : H.size_t) (lat lng : double) :
  let p := H.latLngToScreen (Some g) true sz lat lng in
  let scale := SFmul prec emax (SFdiv prec emax (d_min (H.w sz) (H.h sz)) (d_ofZ 2))
                 (dec 95 100) in
  x p = SFadd prec emax (SFdiv prec emax (H.w sz) (d_ofZ 2))
          (SFmul prec emax (xr_of lat lng (H.snap_phi g)) scale) /\
  y p = SFsub prec emax (SFdiv prec emax (H.h sz) (d_ofZ 2))
          (SFmul prec emax (y_of lat) scale).
Proof. split; reflexivity. Qed.

Lemma pins_xy_double (g : G.globe_state) (wr : G.wrapper_el) (sy lat lng : double) :
  let p := G.latLngToScreen (Some g) (Some wr) sy lat lng in
  let R := SFdiv prec emax (G.offsetWidth wr) (d_ofZ 2) in
  let scale := SFmul prec emax R (dec 95 100) in
  x p = SFsub prec emax
          (SFsub prec emax
             (SFadd prec emax (SFadd prec emax (G.offsetLeft wr) R)
                (SFmul prec emax (xr_of lat lng (G.gs_phi g)) scale))
             (G.rect_left wr))
          (G.rect_left wr) /\
  y p = SFsub prec emax
          (SFsub prec emax
             (SFsub prec emax (SFadd prec emax (G.rect_top wr) R)
                (SFmul prec emax (y_of lat) scale))
             sy)
          (G.rect_top wr).
Proof. split; reflexivity. Qed.

(** C7.  For a latitude in [-90, 90], a longitude in [-180, 180] and a
    finite [phi], both [latLngToScreen] return finite [x] and [y], the poles
    included; the sizes and offsets read from the page are finite numbers
    of magnitude at most [2^1000]. *)
Theorem projection_returns_finite_coordinates
    (g : H.globe_snapshot) (sz : H.size_t)
    (gs : G.globe_state) (wr : G.wrapper_el) (scrollY : double)
    (lat lng : double) :
  representable lat -> -90 <= B2R lat <= 90 ->
  representable lng -> -180 <= B2R lng <= 180 ->
  representable (H.snap_phi g) -> representable (G.gs_phi gs) ->
  within 1000 (H.w sz) -> within 1000 (H.h sz) ->
  within 1000 (G.offsetWidth wr) -> within 1000 (G.offsetLeft wr) ->
  within 1000 (G.rect_left wr) -> within 1000 (G.rect_top wr) ->
  within 1000 scrollY ->
  let p := H.latLngToScreen (Some g) true sz lat lng in
  let p' := G.latLngToScreen (Some gs) (Some wr) scrollY lat lng in
  is_finite (x p) = true /\ is_finite (y p) = true /\
  is_finite (x p') = true /\ is_finite (y p') = true.
Proof.
  intros Hlat Hlatb Hlng Hlngb Hphi Hphi' Hw Hh How Hol Hrl Hrt Hsy p p'.
  assert (Wlat : within 7 lat) by (apply (within_range 7 lat 90); [assumption | assumption | rewrite bpow_7; lra]).
  assert (Wlng : within 8 lng) by (apply (within_range 8 lng 180); [assumption | assumption | rewrite bpow_8; lra]).
  destruct two_double as [H2r H2b].
  destruct (home_xy_double g sz lat lng) as [Ex Ey].
  destruct (pins_xy_double gs wr scrollY lat lng) as [Ex' Ey'].
  cbv zeta in Ex, Ey, Ex', Ey'. fold p in Ex, Ey. fold p' in Ex', Ey'.
  pose proof (xr_of_within lat lng _ Wlat Wlng Hphi) as Wxr.
  pose proof (xr_of_within lat lng _ Wlat Wlng Hphi') as Wxr'.
  pose proof (y_of_within lat Wlat) as Wy.
  assert (Wscale : within 1000 (SFmul prec emax
             (SFdiv prec emax (d_min (H.w sz) (H.h sz)) (d_ofZ 2)) (dec 95 100))).
  { apply (within_mul 1000 0); [lia | | exact dec_95_within].
    apply within_div; [lia | apply within_min; assumption | exact H2r | exact H2b]. }
  assert (WR : within 1000 (SFdiv prec emax (G.offsetWidth wr) (d_ofZ 2)))
    by (apply within_div; [lia | assumption | exact H2r | exact H2b]).
  assert (Wscale' : within 1000 (SFmul prec emax
             (SFdiv prec emax (G.offsetWidth wr) (d_ofZ 2)) (dec 95 100)))
    by (apply (within_mul 1000 0); [lia | exact WR | exact dec_95_within]).
  split; [|split; [|split]].
  - rewrite Ex. apply (within_add 1001); [lia | |].
    + apply (within_weaken 1000); [lia|].
      apply within_div; [lia | assumption | exact H2r | exact H2b].
    + apply (within_mul 1 1000); [lia | exact Wxr | exact Wscale].
  - rewrite Ey. apply (within_sub 1000); [lia | |].
    + apply within_div; [lia | assumption | exact H2r | exact H2b].
    + apply (within_mul 0 1000); [lia | exact Wy | exact Wscale].
  - rewrite Ex'.
    apply (within_sub 1003); [lia | | apply (within_weaken 1000); [lia | assumption]].
    apply (within_sub 1002); [lia | | apply (within_weaken 1000); [lia | assumption]].
    apply (within_add 1001); [lia | |].
    + apply (within_add 1000); [lia | assumption | exact WR].
    + apply (within_mul 1 1000); [lia | exact Wxr' | exact Wscale'].
  - rewrite Ey'.
    apply (within_sub 1003); [lia | | apply (within_weaken 1000); [lia | assumption]].
    apply (within_sub 1002); [lia | | apply (within_weaken 1000); [lia | assumption]].
    apply (within_sub 1001); [lia | |].
    + apply (within_add 1000); [lia | assumption | exact WR].
    + apply (within_weaken 1000); [lia|].
      apply (within_mul 0 1000); [lia | exact Wy | exact Wscale'].
Qed.

End DoubleProjection.

Section DoubleProjectionExample.
Import Double.
Local Open Scope R_scope.

Lemma projection_of_first_player_is_finite :
  let T0 : Trig double :=
    {| Math_sin := fun _ => S754_zero false; Math_cos := fun _ => d_ofZ 1 |} in
  let sz := H.onResize (d_ofZ 1920) in
  let g := {| H.snap_phi := phi_init; H.snap_theta := dec 45 100 |} in
  let gs := {| G.gs_phi := G.initialPhi; G.gs_targetPhi := Null |} in
  let wr := {| G.offsetWidth := d_ofZ 680; G.offsetHeight := d_ofZ 680;
               G.offsetLeft := d_ofZ 0; G.rect_left := d_ofZ 620;
               G.rect_top := d_ofZ 96 |} in
  let p := H.latLngToScreen (T := T0) (Some g) true sz (d_ofZ 36) (d_ofZ 3) in
  let p' := G.latLngToScreen (T := T0) (Some gs) (Some wr) (d_ofZ 0) (d_ofZ 36) (d_ofZ 3) in
  is_finite (x p) = true /\ is_finite (y p) = true /\
  is_finite (x p') = true /\ is_finite (y p') = true.
Proof.
  intros T0 sz g gs wr.
  assert (W36 : within 6 (d_ofZ 36)) by (apply within_small_integer; vm_compute; reflexivity).
  assert (W3 : within 2 (d_ofZ 3)) by (apply within_small_integer; vm_compute; reflexivity).
  assert (B6 : bpow 6 = 64) by (rewrite bpow_IZR by lia; reflexivity).
  assert (B2 : bpow 2 = 4) by (rewrite bpow_IZR by lia; reflexivity).
  apply (projection_returns_finite_coordinates (T := T0)).
  - intros v _. unfold T0. cbn [Math_sin].
    split; [apply representable_zero|]. cbn [B2R]. rewrite Rabs_R0. lra.
  - intros v _. unfold T0. cbn [Math_cos].
    assert (W1 : within 1 (d_ofZ 1)) by (apply within_small_integer; vm_compute; reflexivity).
    assert (E : d_ofZ 1 = pow2_float 0) by (vm_compute; reflexivity).
    split; [apply W1|]. rewrite E.
    destruct (pow2_float_ok 0 ltac:(lia)) as [_ Hv]. rewrite Hv, bpow_0, Rabs_R1. lra.
  - apply W36.
  - destruct W36 as [_ Hb]. rewrite B6 in Hb. unfold Rabs in Hb.
    destruct (Rcase_abs (B2R (d_ofZ 36))); lra.
  - apply W3.
  - destruct W3 as [_ Hb]. rewrite B2 in Hb. unfold Rabs in Hb.
    destruct (Rcase_abs (B2R (d_ofZ 3))); lra.
  - apply representable_by_computation. vm_compute. reflexivity.
  - apply representable_by_computation. vm_compute. reflexivity.
  - apply (within_small_integer 780). vm_compute. reflexivity.
  - apply (within_small_integer 780). vm_compute. reflexivity.
  - apply within_small_integer. vm_compute. reflexivity.
  - apply within_small_integer. vm_compute. reflexivity.
  - apply within_small_integer. vm_compute. reflexivity.
  - apply within_small_integer. vm_compute. reflexivity.
  - apply within_small_integer. vm_compute. reflexivity.
Defined.

End DoubleProjectionExample.
